(** * projen: TypeScript project synthesis (src/typescript.ts)

    A shallow embedding of the three pieces of logic that live in
    [src/typescript.ts]:

    - [ConfigMerger]: [mergeTsconfigOptions], the left-to-right merge of
      tsconfig fragments;
    - [PathRemapper]: the two closures [resolveSnapshotPath] and
      [resolveTestPath] that the constructor prints into the jest snapshot
      resolver, over a model of Node's [path.posix] functions and of
      [String.prototype.replace];
    - [TaskGraphBuilder]: the statements of the [TypeScriptProject]
      constructor that decide the test/compile order and add steps to the
      build, test and package tasks;
    - [ConfigMergerStore]: [mergeTsconfigOptions] again, on a store of
      objects passed by reference, to state what the function leaves
      untouched;
    - [AppProject], [TsconfigSynthesis], [EntrypointTypes] and
      [SnapshotRoots]: the defaults of [TypeScriptAppProject], the options of
      the three tsconfig files, the [types] field of the package and the two
      roots of the snapshot resolver, as the constructor computes them;
    - [Components]: the end of the constructor, which constructs [Eslint],
      [SampleCode], [TypedocDocgen] and [Projenrc] on the project, with the
      effect of the classes of other files as parameters.

    The definitions come first, the properties after them. *)

From Stdlib Require Import Ascii String.
From stdpp Require Import gmap strings list fin_maps.

Set Warnings "-register-all".
Open Scope string_scope.
Open Scope list_scope.

(** ** ConfigMerger *)

Module ConfigMerger.

(** The value of a compiler option: a JSON value (booleans, strings, arrays
    such as [lib], objects such as [paths]).  The merge never inspects it. *)
Inductive json : Type :=
| JNull
| JBool (b : bool)
| JNum (n : Z)
| JStr (s : string)
| JArr (items : list json)
| JObj (fields : list (string * json)).

(** Modelled from the spec: the type [TypescriptConfigOptions] is declared in
    typescript-config.ts, which is not part of this file.  It is the
    ConfigFragment of the specification, with the properties that
    [mergeTsconfigOptions] reads: three optional ones and the
    [compilerOptions] object, which the initial accumulator of line 515 shows
    to be the only required one.

    [include] and [exclude] are only read through [?? []] and are always
    written, so for them [None] stands for an object without the property
    and for one that holds [undefined] alike.  [fileName] is copied by the
    two spreads of lines 506-507, which tell the two apart: [None] is an
    object without the property, [Some None] one whose [fileName] is
    [undefined] (which an optional property admits), and [Some (Some s)]
    one whose [fileName] is the string [s]. *)
Record TypescriptConfigOptions : Type := mkOptions {
  fileName : option (option string);
  include : option (list string);
  exclude : option (list string);
  compilerOptions : gmap string json
}.

(** [x.fileName]: [undefined] ([None]) when the object has no such property
    or holds [undefined] there. *)
Definition read_fileName (o : TypescriptConfigOptions) : option string :=
  fileName o ≫= id.

(** [x.include ?? []] and [x.exclude ?? []]. *)
Definition include_or_empty (o : TypescriptConfigOptions) : list string :=
  default [] (include o).

Definition exclude_or_empty (o : TypescriptConfigOptions) : list string :=
  default [] (exclude o).

(** [{ ...a, ...b }] on one property: the later object wins when it has the
    property, whatever its value ([undefined] included), and the earlier one
    is kept when the later object has no such property. *)
Definition spread_prop {A} (previous current : option A) : option A :=
  match current with
  | Some v => Some v
  | None => previous
  end.

(** [{ ...a, ...b }] on objects used as maps: every key of [b], then the keys
    of [a] that [b] lacks. *)
Definition spread (previous current : gmap string json) : gmap string json :=
  current ∪ previous.

(** The reducer passed to [reduce] (lines 505-514). *)
Definition merge_step (previous current : TypescriptConfigOptions)
  : TypescriptConfigOptions :=
  {| fileName := spread_prop (fileName previous) (fileName current);
     include := Some (include_or_empty previous ++ include_or_empty current);
     exclude := Some (exclude_or_empty previous ++ exclude_or_empty current);
     compilerOptions :=
       spread (compilerOptions previous) (compilerOptions current) |}.

(** The initial accumulator [{ compilerOptions: {} }] (line 515): it has no
    [include], [exclude] or [fileName] property. *)
Definition initial : TypescriptConfigOptions :=
  {| fileName := None; include := None; exclude := None;
     compilerOptions := ∅ |}.

(** [options.filter(Boolean)]: the entries that are not [undefined]. *)
Definition definedOptions (options : list (option TypescriptConfigOptions))
  : list TypescriptConfigOptions :=
  omap id options.

Definition mergeTsconfigOptions
  (options : list (option TypescriptConfigOptions)) : TypescriptConfigOptions :=
  foldl merge_step initial (definedOptions options).

End ConfigMerger.

(** ** PathRemapper *)

Module PathRemapper.

(** A JavaScript string, as the sequence of its characters. *)
Definition chars (s : string) : list ascii := list_ascii_of_string s.

(** [CHAR_FORWARD_SLASH], the only separator of [path.posix]. *)
Definition is_sep (c : ascii) : bool := Ascii.eqb c "/".

(** *** String.prototype.indexOf / includes / replace with a string pattern *)

Fixpoint startsWith (pat s : list ascii) {struct pat} : bool :=
  match pat, s with
  | [], _ => true
  | _ :: _, [] => false
  | a :: pat', b :: s' => Ascii.eqb a b && startsWith pat' s'
  end.

(** Position of the first occurrence of [pat] in [s]. *)
Fixpoint indexOf (pat s : list ascii) {struct s} : option nat :=
  if startsWith pat s then Some 0
  else match s with
       | [] => None
       | _ :: s' => S <$> indexOf pat s'
       end.

Definition includes (pat s : list ascii) : bool :=
  bool_decide (is_Some (indexOf pat s)).

(** GetSubstitution for a string pattern (no capture groups): [$$] is a
    dollar sign, [$&] the matched text, [$`] the text before the match and
    [$'] the text after it; every other character stands for itself. *)
Fixpoint getSubstitution (matched before after repl : list ascii)
  : list ascii :=
  match repl with
  | [] => []
  | c :: r =>
      if Ascii.eqb c "$" then
        match r with
        | [] => [c]
        | d :: r' =>
            if Ascii.eqb d "$" then c :: getSubstitution matched before after r'
            else if Ascii.eqb d "&" then
              matched ++ getSubstitution matched before after r'
            else if Ascii.eqb d "`" then
              before ++ getSubstitution matched before after r'
            else if Ascii.eqb d "'" then
              after ++ getSubstitution matched before after r'
            else c :: getSubstitution matched before after r
        end
      else c :: getSubstitution matched before after r
  end.

(** [s.replace(pat, repl)] with a string [pat]: only the first occurrence is
    replaced, and [s] is returned as it is when there is none. *)
Definition str_replace (s pat repl : list ascii) : list ascii :=
  match indexOf pat s with
  | None => s
  | Some i =>
      let before := take i s in
      let after := drop (i + length pat) s in
      before ++ getSubstitution pat before after repl ++ after
  end.

(** [s.slice(start, end)] for [0 <= start]; [end = None] stands for the
    index [-1], which counts from the end of the string. *)
Definition slice (s : list ascii) (start : nat) (e : option nat) : list ascii :=
  match e with
  | Some e => take (e - start) (drop start s)
  | None => take (length s - 1 - start) (drop start s)
  end.

(** *** path.posix.dirname *)

(** The loop [for (i = path.length - 1; i >= 1; --i)]: [r] holds
    [path[1..i]] last character first, so the character looked at has index
    [1 + length r'] in the path.  The result is [end - 1], or [None] when
    [end] stays [-1]. *)
Fixpoint dirname_loop (r : list ascii) (matchedSlash : bool) : option nat :=
  match r with
  | [] => None
  | c :: r' =>
      if is_sep c then
        if matchedSlash then dirname_loop r' matchedSlash
        else Some (length r')
      else dirname_loop r' false
  end.

Definition dirname (path : list ascii) : list ascii :=
  match path with
  | [] => chars "."
  | c0 :: tl =>
      let hasRoot := is_sep c0 in
      match dirname_loop (rev tl) true with
      | None => if hasRoot then chars "/" else chars "."
      | Some e =>
          if hasRoot && (e =? 0)%nat then chars "//"
          else slice path 0 (Some (S e))
      end
  end.

(** *** path.posix.basename(path, suffix) *)

(** The loop of the branch taken when the suffix is not empty and not longer
    than the path.  [r] holds [path[0..i]] last character first; [ext] is the
    part of the suffix still to be matched, last character first (it is empty
    when [extIdx] is [-1]).  Returns [start], [end] and [firstNonSlashEnd],
    with [None] for [-1]. *)
Fixpoint basename_suffix_loop (r : list ascii) (matchedSlash : bool)
    (ext : list ascii) (firstNonSlashEnd e : option nat)
  : nat * option nat * option nat :=
  match r with
  | [] => (0, e, firstNonSlashEnd)
  | c :: r' =>
      let i := length r' in
      if is_sep c then
        if matchedSlash then
          basename_suffix_loop r' matchedSlash ext firstNonSlashEnd e
        else (i + 1, e, firstNonSlashEnd)
      else
        let matchedSlash' :=
          match firstNonSlashEnd with
          | None => false
          | Some _ => matchedSlash
          end in
        let fnse :=
          match firstNonSlashEnd with
          | None => Some (i + 1)
          | Some _ => firstNonSlashEnd
          end in
        match ext with
        | [] => basename_suffix_loop r' matchedSlash' [] fnse e
        | x :: ext' =>
            if Ascii.eqb c x then
              basename_suffix_loop r' matchedSlash' ext' fnse
                (match ext' with [] => Some i | _ :: _ => e end)
            else basename_suffix_loop r' matchedSlash' [] fnse fnse
        end
  end.

(** The loop of the branch without a suffix; returns [start] and [end]. *)
Fixpoint basename_plain_loop (r : list ascii) (matchedSlash : bool)
    (e : option nat) : nat * option nat :=
  match r with
  | [] => (0, e)
  | c :: r' =>
      let i := length r' in
      if is_sep c then
        if matchedSlash then basename_plain_loop r' matchedSlash e
        else (i + 1, e)
      else
        match e with
        | None => basename_plain_loop r' false (Some (i + 1))
        | Some _ => basename_plain_loop r' matchedSlash e
        end
  end.

Definition basename (path suffix : list ascii) : list ascii :=
  if bool_decide (suffix ≠ []) && (length suffix <=? length path)%nat then
    if bool_decide (suffix = path) then []
    else
      let '(start, e, firstNonSlashEnd) :=
        basename_suffix_loop (rev path) true (rev suffix) None None in
      let e' :=
        if bool_decide (Some start = e) then firstNonSlashEnd
        else match e with None => Some (length path) | Some _ => e end in
      slice path start e'
  else
    let '(start, e) := basename_plain_loop (rev path) true None in
    match e with
    | None => []
    | Some _ => slice path start e
    end.

(** *** path.posix.normalize and path.posix.join *)

(** The maximal separator-free runs of a path, in order: what
    [normalizeString] sees between two consecutive separators (or an end of
    the string). *)
Fixpoint split_sep (s : list ascii) : list (list ascii) :=
  match s with
  | [] => [[]]
  | c :: s' =>
      if is_sep c then [] :: split_sep s'
      else match split_sep s' with
           | seg :: segs => (c :: seg) :: segs
           | [] => [[c]]
           end
  end.

(** Segments put back together with one separator between two of them. *)
Fixpoint join_sep (segs : list (list ascii)) : list ascii :=
  match segs with
  | [] => []
  | [seg] => seg
  | seg :: rest => seg ++ "/"%char :: join_sep rest
  end.

(** One separator of [normalizeString]'s loop: [res] is the result built so
    far, last segment first, and [seg] the run that the separator closes.  An
    empty run and [.] add nothing; [..] removes the last segment unless there
    is none or it is [..] itself, in which case [..] is kept only when
    [allowAboveRoot]; any other run is appended. *)
Definition normalize_step (allowAboveRoot : bool) (res : list (list ascii))
    (seg : list ascii) : list (list ascii) :=
  if bool_decide (seg = []) || bool_decide (seg = chars ".") then res
  else if bool_decide (seg = chars "..") then
    match res with
    | top :: rest =>
        if bool_decide (top = chars "..") then
          if allowAboveRoot then seg :: res else res
        else rest
    | [] => if allowAboveRoot then [seg] else []
    end
  else seg :: res.

Definition normalizeString (path : list ascii) (allowAboveRoot : bool)
  : list ascii :=
  join_sep (rev (foldl (normalize_step allowAboveRoot) [] (split_sep path))).

Definition normalize (path : list ascii) : list ascii :=
  match path with
  | [] => chars "."
  | c0 :: _ =>
      let isAbsolute := is_sep c0 in
      let trailingSeparator :=
        match last path with Some c => is_sep c | None => false end in
      let p := normalizeString path (negb isAbsolute) in
      match p with
      | [] =>
          if isAbsolute then chars "/"
          else if trailingSeparator then chars "./" else chars "."
      | _ :: _ =>
          let p' := if trailingSeparator then p ++ chars "/" else p in
          if isAbsolute then "/"%char :: p' else p'
      end
  end.

(** [path.join(...args)]: the arguments that are not empty, joined by one
    separator and normalized; ["."] when there is none. *)
Definition is_empty (s : list ascii) : bool :=
  match s with [] => true | _ :: _ => false end.

Definition join (args : list (list ascii)) : list ascii :=
  match List.filter (λ a, negb (is_empty a)) args with
  | [] => chars "."
  | joined => normalize (join_sep joined)
  end.

(** *** The two closures of the snapshot resolver (lines 317-330) *)

Definition resolveSnapshotPath (libtest srctest : list ascii)
    (test ext : list ascii) : list ascii :=
  let fullpath := str_replace test libtest srctest in
  join [ dirname fullpath;
         chars "__snapshots__";
         basename fullpath (chars ".js") ++ chars ".ts" ++ ext ].

Definition resolveTestPath (libtest srctest : list ascii)
    (snap ext : list ascii) : list ascii :=
  let filename := basename snap (chars ".ts" ++ ext) ++ chars ".js" in
  let dir := str_replace (dirname (dirname snap)) srctest libtest in
  join [dir; filename].

(** *** Normalized paths

    A segment that [normalize] keeps as it is: not empty, not [.] or [..],
    and without a separator. *)
Definition is_clean_segment (seg : list ascii) : bool :=
  negb (is_empty seg)
  && negb (bool_decide (seg = chars "."))
  && negb (bool_decide (seg = chars ".."))
  && forallb (λ c, negb (is_sep c)) seg.

(** A path made of such segments only, after one optional leading
    separator: [a/b], [/a/b], but not [a//b], [./a], [a/../b], [a/] or [/]. *)
Definition is_clean_path (path : list ascii) : bool :=
  forallb is_clean_segment
    (split_sep (match path with
                | c :: rest => if is_sep c then rest else path
                | [] => []
                end)).

(** How a call ends: it returns a value or throws.  [MalformedPathError] is
    the error of the specification; the two closures hold no [throw], and
    [replace], [dirname], [basename] and [join] return a string for strings,
    so a call of either closure returns. *)
Inductive error : Type := MalformedPathError.

Inductive completion (A : Type) : Type :=
| Returns (value : A)
| Throws (e : error).

Arguments Returns {A} value.
Arguments Throws {A} e.

Definition call_resolveSnapshotPath (libtest srctest test ext : list ascii)
  : completion (list ascii) :=
  Returns (resolveSnapshotPath libtest srctest test ext).

Definition call_resolveTestPath (libtest srctest snap ext : list ascii)
  : completion (list ascii) :=
  Returns (resolveTestPath libtest srctest snap ext).

End PathRemapper.

(** ** TaskGraphBuilder *)

Module TaskGraphBuilder.

(** Modelled from the spec: the task model of tasks.ts, which is not part of
    this file.  A step is a literal shell command or a reference, by name, to
    another task ("spawn"); a task has a name, a category used for reporting
    only, and its steps in execution order. *)
Inductive TaskStep : Type :=
| Exec (command : string)
| Spawn (subtask : string).

(** Modelled from the spec: the classification tags of tasks.ts, of which
    the constructor uses [BUILD] and [RELEASE]. *)
Inductive TaskCategory : Type := BUILD | TEST | RELEASE | MAINTAIN | MISC.

(** Modelled from the spec: a [Task] of tasks.ts, with its steps in
    execution order. *)
Record Task : Type := mkTask {
  name : string;
  description : option string;
  category : option TaskCategory;
  steps : list TaskStep
}.

Definition with_steps (t : Task) (new_steps : list TaskStep) : Task :=
  {| name := name t; description := description t; category := category t;
     steps := new_steps |}.

(** Modelled from the spec: [Task.exec] of tasks.ts appends a shell command
    to the steps of the task. *)
Definition exec (command : string) (t : Task) : Task :=
  with_steps t (steps t ++ [Exec command]).

(** Modelled from the spec: [Task.prependExec] of tasks.ts puts a shell
    command before the steps the task already has. *)
Definition prependExec (command : string) (t : Task) : Task :=
  with_steps t (Exec command :: steps t).

(** Modelled from the spec: [Task.spawn] of tasks.ts appends a reference to
    [subtask], which the runner executes to completion at that point. *)
Definition spawn (subtask : Task) (t : Task) : Task :=
  with_steps t (steps t ++ [Spawn (name subtask)]).

(** Modelled from the spec: [Project.addTask] of project.ts creates a task
    with the given name, whose only step is [exec] when one is given.  The
    registration of the task in the project, which refuses a name that is
    already taken, is not part of this model. *)
Definition addTask (task_name : string) (task_description : string)
    (task_category : TaskCategory) (task_exec : option string) : Task :=
  {| name := task_name;
     description := Some task_description;
     category := Some task_category;
     steps := match task_exec with Some c => [Exec c] | None => [] end |}.

(** The options of [TypeScriptProjectOptions] that the statements below
    read. *)
Record TypeScriptProjectOptions : Type := mkProjectOptions {
  opt_libdir : option string;
  opt_srcdir : option string;
  opt_testdir : option string;
  opt_compileBeforeTest : option bool;
  opt_package : option bool
}.

(** What the constructor inherits from [NodeProject] (node-project.ts) once
    [super(...)] has returned: the compile, test and build tasks, whether the
    jest component exists ([this.jest]), and the package manager's command
    ([this.package.packageManager]). *)
Record NodeProject : Type := mkNodeProject {
  compileTask : Task;
  testTask : Task;
  buildTask : Task;
  jest : bool;
  packageManager : string
}.

(** The project when the constructor is done with the statements of lines
    189-234 and 352-383. *)
Record TypeScriptProject : Type := mkProject {
  node : NodeProject;
  srcdir : string;
  libdir : string;
  testdir : string;
  watchTask : Task;
  packageTask : option Task
}.

(** [s.startsWith(prefix)]. *)
Definition startsWith (s prefix : string) : bool := String.prefix prefix s.

(** [path.posix.sep]. *)
Definition sep : string := "/".

(** Line 209: are the tests under the source directory, and so compiled to
    the output directory with the sources? *)
Definition compiledTests (options : TypeScriptProjectOptions) : bool :=
  let srcdir := default "src" (opt_srcdir options) in
  let testdir := default "test" (opt_testdir options) in
  startsWith testdir (srcdir +:+ sep).

(** Line 212: [options.compileBeforeTest ?? compiledTests]. *)
Definition compileBeforeTest (options : TypeScriptProjectOptions) : bool :=
  default (compiledTests options) (opt_compileBeforeTest options).

(** Line 222: [options.package ?? true]. *)
Definition packageEnabled (options : TypeScriptProjectOptions) : bool :=
  default true (opt_package options).

(** Lines 223-231: the package task. *)
Definition newPackageTask (packageManager : string) : Task :=
  let packageTask :=
    addTask "package" "Create an npm tarball" RELEASE None in
  let packageTask := exec "rm -fr dist" packageTask in
  let packageTask := exec "mkdir -p dist/js" packageTask in
  let packageTask := exec (packageManager +:+ " pack") packageTask in
  exec "mv *.tgz dist/js/" packageTask.

(** The statements of the constructor that create tasks or add steps to
    them, in the order of the source, up to line 383.  The statements after
    it construct components of other files on the project, which can add to
    its tasks; they are in [Components.TypeScriptProject_new]. *)
Definition TypeScriptProject_constructor (options : TypeScriptProjectOptions)
    (super : NodeProject) : TypeScriptProject :=
  let srcdir := default "src" (opt_srcdir options) in
  let libdir := default "lib" (opt_libdir options) in
  (* line 195 *)
  let compileTask := exec "tsc" (compileTask super) in
  (* lines 197-201 *)
  let watchTask :=
    addTask "watch" "Watch & compile in the background" BUILD (Some "tsc -w") in
  let testdir := default "test" (opt_testdir options) in
  let testTask := testTask super in
  (* lines 214-220 *)
  let buildTask :=
    if compileBeforeTest options then
      spawn testTask (spawn compileTask (buildTask super))
    else
      spawn compileTask (spawn testTask (buildTask super)) in
  (* lines 222-234 *)
  let packageTask :=
    if packageEnabled options then Some (newPackageTask (packageManager super))
    else None in
  let buildTask :=
    match packageTask with
    | Some packageTask => spawn packageTask buildTask
    | None => buildTask
    end in
  (* lines 352, 375-379 *)
  let testTask :=
    if jest super && negb (compiledTests options)
       && negb (compileBeforeTest options)
    then prependExec ("rm -fr " +:+ libdir +:+ "/") testTask
    else testTask in
  {| node := {| compileTask := compileTask; testTask := testTask;
                buildTask := buildTask; jest := jest super;
                packageManager := packageManager super |};
     srcdir := srcdir; libdir := libdir; testdir := testdir;
     watchTask := watchTask; packageTask := packageTask |}.

End TaskGraphBuilder.

(** ** ConfigMerger on a store of objects

    [mergeTsconfigOptions] once more, with the objects it reads and creates
    made explicit: fragments, their [include] and [exclude] arrays and their
    [compilerOptions] objects live in a store and are passed around by
    reference, as JavaScript does.  Spreading and the array literals of
    lines 505-514 allocate new objects; nothing in the function assigns to an
    existing one.  The values of the compiler options are copied as they are
    (a nested object is shared with the fragment it comes from), and the
    function never writes through them. *)

Module ConfigMergerStore.

Import ConfigMerger.

Abbreviation loc := positive.

Inductive object : Type :=
| Array (items : list string)
| Dict (props : gmap string json)
| Options (fileName : option (option string)) (include exclude : option loc)
    (compilerOptions : loc).

Abbreviation store := (gmap loc object).

(** A new object, at a reference that the store does not use yet. *)
Definition alloc (o : object) (σ : store) : loc * store :=
  let l := fresh (dom σ) in (l, <[l := o]> σ).

(** [r ?? []] for an optional reference to an array. *)
Definition read_array (σ : store) (r : option loc) : option (list string) :=
  match r with
  | None => Some []
  | Some l =>
      match σ !! l with
      | Some (Array items) => Some items
      | _ => None
      end
  end.

Definition read_dict (σ : store) (l : loc) : option (gmap string json) :=
  match σ !! l with
  | Some (Dict props) => Some props
  | _ => None
  end.

(** The reducer: it reads [previous] and [current] and builds its result
    from new objects only.  [None] stands for a store in which a reference
    does not lead to an object of the expected kind. *)
Definition merge_step (σ : store) (previous current : loc)
  : option (loc * store) :=
  match σ !! previous, σ !! current with
  | Some (Options fn_p inc_p exc_p co_p), Some (Options fn_c inc_c exc_c co_c) =>
      ip ← read_array σ inc_p;
      ic ← read_array σ inc_c;
      ep ← read_array σ exc_p;
      ec ← read_array σ exc_c;
      dp ← read_dict σ co_p;
      dc ← read_dict σ co_c;
      let '(inc, σ1) := alloc (Array (ip ++ ic)) σ in
      let '(exc, σ2) := alloc (Array (ep ++ ec)) σ1 in
      let '(co, σ3) := alloc (Dict (spread dp dc)) σ2 in
      Some (alloc (Options (spread_prop fn_p fn_c) (Some inc) (Some exc) co) σ3)
  | _, _ => None
  end.

(** [definedOptions.reduce(merge_step, acc)]. *)
Fixpoint reduce (σ : store) (acc : loc) (definedOptions : list loc)
  : option (loc * store) :=
  match definedOptions with
  | [] => Some (acc, σ)
  | current :: rest =>
      '(acc', σ') ← merge_step σ acc current;
      reduce σ' acc' rest
  end.

Definition mergeTsconfigOptions (options : list (option loc)) (σ : store)
  : option (loc * store) :=
  let definedOptions := omap id options in
  let '(co, σ1) := alloc (Dict ∅) σ in
  let '(acc, σ2) := alloc (Options None None None co) σ1 in
  reduce σ2 acc definedOptions.

(** The fragment that a reference stands for: the value of its properties,
    with arrays and the options object read through. *)
Definition load_array (σ : store) (r : option loc)
  : option (option (list string)) :=
  match r with
  | None => Some None
  | Some l =>
      match σ !! l with
      | Some (Array items) => Some (Some items)
      | _ => None
      end
  end.

Definition load (σ : store) (l : loc) : option TypescriptConfigOptions :=
  match σ !! l with
  | Some (Options fn inc exc co) =>
      i ← load_array σ inc;
      e ← load_array σ exc;
      d ← read_dict σ co;
      Some {| fileName := fn; include := i; exclude := e;
              compilerOptions := d |}
  | _ => None
  end.

(** An entry of the input array: [undefined], or a reference to a fragment
    whose parts are all in the store. *)
Definition well_formed (σ : store) (entry : option loc) : Prop :=
  match entry with
  | None => True
  | Some l => is_Some (load σ l)
  end.

(** The fragment at [r] in [σ'] is made of objects that [σ] does not hold:
    its [include] and [exclude] arrays, when it has them, and its
    [compilerOptions] object. *)
Definition new_parts (σ σ' : store) (r : loc) : Prop :=
  ∃ fn inc exc co,
    σ' !! r = Some (Options fn inc exc co)
    ∧ (∀ l, inc = Some l → σ !! l = None)
    ∧ (∀ l, exc = Some l → σ !! l = None)
    ∧ σ !! co = None.

End ConfigMergerStore.

(** ** TypeScriptAppProject (lines 474-484) *)

Module AppProject.

Import ConfigMerger TaskGraphBuilder.

(** The options object given to [TypeScriptAppProject].  Its properties are
    read by [TypeScriptProject] through [??], for which an object without a
    property and one that holds [undefined] there are alike; not so
    [package], which the spread of line 481 lets override the [false] of
    line 480 as soon as the object has the property.  [None] is an object
    without [package], [Some None] one whose [package] is [undefined] (the
    declaration [package?: boolean] of line 122 admits it), and
    [Some (Some b)] one whose [package] is [b]. *)
Record TypeScriptAppProjectOptions : Type := mkAppProjectOptions {
  app_libdir : option string;
  app_srcdir : option string;
  app_testdir : option string;
  app_compileBeforeTest : option bool;
  app_package : option (option bool)
}.

(** The object given to [super]: [{ ..., package: false, ...options }], as
    [TypeScriptProject] reads it.  The other three defaults
    ([allowLibraryDependencies], [releaseWorkflow], [entrypoint]) are read by
    [NodeProject] only. *)
Definition TypeScriptAppProject_options
    (options : TypeScriptAppProjectOptions) : TypeScriptProjectOptions :=
  {| opt_libdir := app_libdir options;
     opt_srcdir := app_srcdir options;
     opt_testdir := app_testdir options;
     opt_compileBeforeTest := app_compileBeforeTest options;
     opt_package :=
       spread_prop (Some (Some false)) (app_package options) ≫= id |}.

(** The statements of [TypeScriptProject_constructor], run by [super] with
    these options. *)
Definition TypeScriptAppProject_constructor
    (options : TypeScriptAppProjectOptions) (super : NodeProject)
  : TypeScriptProject :=
  TypeScriptProject_constructor (TypeScriptAppProject_options options) super.

End AppProject.

(** ** The components of the constructor (lines 385-432) and [SampleCode] *)

Module Components.

Import TaskGraphBuilder.

(** The options that decide which components the constructor builds. *)
Record ComponentOptions : Type := mkComponentOptions {
  opt_eslint : option bool;
  opt_sampleCode : option bool;
  opt_docgen : option bool;
  opt_projenrcTs : option bool
}.

(** [lines.join("\n")]. *)
Definition join_lines (lines : list string) : string :=
  String.concat (String "010"%char EmptyString) lines.

(** Lines 439-445. *)
Definition srcCode : string :=
  join_lines
    [ "export class Hello {";
      "  public sayHello() {";
      "    return 'hello, world!';";
      "  }";
      "}" ].

(** Lines 447-453. *)
Definition testCode : string :=
  join_lines
    [ "import { Hello } from '../src';";
      "";
      "test('hello', () => {";
      "  expect(new Hello().sayHello()).toBe('hello, world!');";
      "});" ].

Section WithComponents.

(** The classes [Eslint], [SampleDir], [TypedocDocgen] and [Projenrc] are
    declared in other files.  Each is constructed on the project and can
    change it, its tasks included: what a call does to the project is a
    parameter.  The options objects that the constructor builds for [Eslint]
    and [Projenrc] (lines 387-391 and 431) are arguments of those calls and
    are not modelled.  The files, ignore patterns and dependencies that the
    constructor adds (lines 405-408 and 415-418 among others) are taken to
    leave the tasks alone, as in [TaskGraphBuilder]. *)
Variable Eslint : TypeScriptProject → TypeScriptProject.
Variable SampleDir :
  string → list (string * string) → TypeScriptProject → TypeScriptProject.
Variable TypedocDocgen : TypeScriptProject → TypeScriptProject.
Variable Projenrc : TypeScriptProject → TypeScriptProject.

(** Lines 436-467: [SampleCode] puts [index.ts] in the source directory and
    [hello.test.ts] in the test directory of the project. *)
Definition SampleCode (project : TypeScriptProject) : TypeScriptProject :=
  let project := SampleDir (srcdir project) [("index.ts", srcCode)] project in
  SampleDir (testdir project) [("hello.test.ts", testCode)] project.

(** The whole constructor: the statements of
    [TypeScriptProject_constructor], then the components in the order of the
    source. *)
Definition TypeScriptProject_new (components : ComponentOptions)
    (options : TypeScriptProjectOptions) (super : NodeProject)
  : TypeScriptProject :=
  let this := TypeScriptProject_constructor options super in
  (* lines 385-392: options.eslint ?? true *)
  let this :=
    if default true (opt_eslint components) then Eslint this else this in
  (* lines 421-423: options.sampleCode ?? true *)
  let this :=
    if default true (opt_sampleCode components) then SampleCode this
    else this in
  (* lines 425-427: this.docgen, which line 192 sets to options.docgen *)
  let this :=
    if default false (opt_docgen components) then TypedocDocgen this
    else this in
  (* lines 429-432: options.projenrcTs ?? false *)
  if default false (opt_projenrcTs components) then Projenrc this else this.

End WithComponents.

(** The steps that the compile, test and build tasks have in [before] are
    the first steps that they have in [after], in the same order: between
    the two, steps were only added at the end of these tasks. *)
Definition appends_steps (before after : TypeScriptProject) : Prop :=
  steps (compileTask (node before)) `prefix_of`
    steps (compileTask (node after))
  ∧ steps (testTask (node before)) `prefix_of` steps (testTask (node after))
  ∧ steps (buildTask (node before)) `prefix_of`
      steps (buildTask (node after)).

(** A component for the examples: it has the test task spawn a task named
    [eslint], and leaves the rest of the project as it is. *)
Definition example_Eslint (project : TypeScriptProject) : TypeScriptProject :=
  let node := node project in
  let testTask :=
    with_steps (testTask node) (steps (testTask node) ++ [Spawn "eslint"]) in
  {| node := {| compileTask := compileTask node; testTask := testTask;
                buildTask := buildTask node; jest := jest node;
                packageManager := packageManager node |};
     srcdir := srcdir project; libdir := libdir project;
     testdir := testdir project; watchTask := watchTask project;
     packageTask := packageTask project |}.

End Components.

(** ** The tsconfig files (lines 248-285, 352-371 and 385-409) *)

Module TsconfigSynthesis.

Import ConfigMerger TaskGraphBuilder.

(** Lines 248-269. *)
Definition compilerOptionDefaults : gmap string json :=
  list_to_map
    [ ("alwaysStrict", JBool true);
      ("declaration", JBool true);
      ("experimentalDecorators", JBool true);
      ("inlineSourceMap", JBool true);
      ("inlineSources", JBool true);
      ("lib", JArr [JStr "es2018"]);
      ("module", JStr "CommonJS");
      ("noEmitOnError", JBool false);
      ("noFallthroughCasesInSwitch", JBool true);
      ("noImplicitAny", JBool true);
      ("noImplicitReturns", JBool true);
      ("noImplicitThis", JBool true);
      ("noUnusedLocals", JBool true);
      ("noUnusedParameters", JBool true);
      ("resolveJsonModule", JBool true);
      ("strict", JBool true);
      ("strictNullChecks", JBool true);
      ("strictPropertyInitialization", JBool true);
      ("stripInternal", JBool true);
      ("target", JStr "ES2018") ].

(** The options that the three blocks read, beside the directories and
    [compileBeforeTest] of [TaskGraphBuilder.TypeScriptProjectOptions]. *)
Record TsconfigOptions : Type := mkTsconfigOptions {
  project : TypeScriptProjectOptions;
  opt_tsconfig : option TypescriptConfigOptions;
  opt_disableTsconfig : option bool;
  opt_eslint : option bool
}.

Definition srcdir_of (o : TsconfigOptions) : string :=
  default "src" (opt_srcdir (project o)).

Definition libdir_of (o : TsconfigOptions) : string :=
  default "lib" (opt_libdir (project o)).

Definition testdir_of (o : TsconfigOptions) : string :=
  default "test" (opt_testdir (project o)).

(** Lines 272-280: [{ rootDir, outDir, ...compilerOptionDefaults }]. *)
Definition baseTsconfig (o : TsconfigOptions) : TypescriptConfigOptions :=
  {| fileName := None;
     include := Some [srcdir_of o +:+ "/**/*.ts"];
     exclude := Some ["node_modules"; libdir_of o];
     compilerOptions :=
       spread {[ "rootDir" := JStr (srcdir_of o);
                 "outDir" := JStr (libdir_of o) ]}
         compilerOptionDefaults |}.

(** Lines 271-285: what [new TypescriptConfig] is given, or [None] when
    [disableTsconfig] holds. *)
Definition tsconfig (o : TsconfigOptions) : option TypescriptConfigOptions :=
  if default false (opt_disableTsconfig o) then None
  else Some (mergeTsconfigOptions [Some (baseTsconfig o); opt_tsconfig o]).

Section WithProjenrc.

(** [PROJEN_RC] is a constant of common.ts, which is not part of this
    file. *)
Variable PROJEN_RC : string.

(** Lines 356-365 and 394-403: the two bases differ by their file name. *)
Definition baseTsconfigFor (name : string) (o : TsconfigOptions)
  : TypescriptConfigOptions :=
  {| fileName := Some (Some name);
     include := Some [ PROJEN_RC;
                       srcdir_of o +:+ "/**/*.ts";
                       testdir_of o +:+ "/**/*.ts" ];
     exclude := Some ["node_modules"];
     compilerOptions := compilerOptionDefaults |}.

(** Lines 352-371: what [jest.generateTypescriptConfig] is given, when the
    jest component exists and the tests are not compiled with the sources. *)
Definition tsconfigJest (jest : bool) (o : TsconfigOptions)
  : option TypescriptConfigOptions :=
  if jest && negb (compiledTests (project o)) then
    Some (mergeTsconfigOptions
            [Some (baseTsconfigFor "tsconfig.jest.json" o); opt_tsconfig o])
  else None.

(** Lines 385-408: what the [TypescriptConfig] of eslint is given, unless
    [eslint] is [false]. *)
Definition tsconfigEslint (o : TsconfigOptions)
  : option TypescriptConfigOptions :=
  if default true (opt_eslint o) then
    Some (mergeTsconfigOptions
            [Some (baseTsconfigFor "tsconfig.eslint.json" o); opt_tsconfig o])
  else None.

End WithProjenrc.

(** An options object for the examples: the user adds a glob to each list,
    turns [strict] off, moves the output and names the file. *)
Definition example_options : TsconfigOptions :=
  mkTsconfigOptions
    (mkProjectOptions None None None None None)
    (Some (mkOptions (Some (Some "tsconfig.custom.json"))
             (Some ["extra/**/*.ts"])
             (Some ["tmp"])
             {[ "strict" := JBool false; "outDir" := JStr "out" ]}))
    None None.

End TsconfigSynthesis.

(** ** The [types] field of the package (lines 236-246) *)

Module EntrypointTypes.

Import PathRemapper.

(** [s.replace(/\\/g, "/")]: every backslash becomes a separator. *)
Definition backslashes_to_slashes (s : list ascii) : list ascii :=
  map (λ c, if Ascii.eqb c "092" then "/"%char else c) s.

(** Lines 239-244: the declaration file next to the entrypoint. *)
Definition derivedTypes (entrypoint : list ascii) : list ascii :=
  backslashes_to_slashes
    (join [dirname entrypoint; basename entrypoint (chars ".js")])
  ++ chars ".d.ts".

(** Lines 236-246: the value given to [package.addField("types", ...)], or
    [None] when the field is not added.  [entrypoint] is [this.entrypoint],
    set by [NodeProject].  An empty [options.entrypointTypes] does not pass
    the test of line 236 by itself, and is not replaced by [??]. *)
Definition entrypointTypes (opt_entrypointTypes : option (list ascii))
    (entrypoint : list ascii) : option (list ascii) :=
  let supplied :=
    match opt_entrypointTypes with
    | Some (_ :: _) => true
    | _ => false
    end in
  if supplied || negb (is_empty entrypoint) then
    Some (match opt_entrypointTypes with
          | Some types => types
          | None => derivedTypes entrypoint
          end)
  else None.

End EntrypointTypes.

(** ** The roots of the snapshot resolver (lines 307-314) *)

Module SnapshotRoots.

Import PathRemapper TaskGraphBuilder.

(** The loop of [path.posix.resolve]: the arguments from the last to the
    first, then the working directory, until an absolute one is met; empty
    ones are skipped.  Returns [resolvedPath] and [resolvedAbsolute]. *)
Fixpoint resolve_loop (paths : list (list ascii)) (resolvedPath : list ascii)
  : list ascii * bool :=
  match paths with
  | [] => (resolvedPath, false)
  | path :: rest =>
      match path with
      | [] => resolve_loop rest resolvedPath
      | c :: _ =>
          let resolvedPath := path ++ "/"%char :: resolvedPath in
          if is_sep c then (resolvedPath, true)
          else resolve_loop rest resolvedPath
      end
  end.

(** [path.posix.resolve(...args)] in the working directory [cwd]. *)
Definition resolve (cwd : list ascii) (args : list (list ascii))
  : list ascii :=
  let '(resolvedPath, resolvedAbsolute) :=
    resolve_loop (rev args ++ [cwd]) [] in
  let resolvedPath := normalizeString resolvedPath (negb resolvedAbsolute) in
  if resolvedAbsolute then "/"%char :: resolvedPath
  else if is_empty resolvedPath then chars "." else resolvedPath.

(** The first loop of [path.posix.relative]: [from] and [to] without their
    first character, compared from index [i] on.  Returns the index at which
    the loop stops and [lastCommonSep + 1] (so [0] stands for [-1]). *)
Fixpoint common_loop (from to : list ascii) (i lastCommonSep1 : nat)
  : nat * nat :=
  match from, to with
  | fromCode :: from', toCode :: to' =>
      if Ascii.eqb fromCode toCode then
        common_loop from' to' (S i)
          (if is_sep fromCode then S i else lastCommonSep1)
      else (i, lastCommonSep1)
  | _, _ => (i, lastCommonSep1)
  end.

(** The second loop: one [..] for each separator of [from] after the common
    part, and one for its end. *)
Definition up_levels (rest : list ascii) : list ascii :=
  join_sep
    (replicate (S (length (List.filter is_sep rest))) (chars "..")).

(** [path.posix.relative(from, to)] in the working directory [cwd]. *)
Definition relative (cwd from to : list ascii) : list ascii :=
  if bool_decide (from = to) then []
  else
    let from := resolve cwd [from] in
    let to := resolve cwd [to] in
    if bool_decide (from = to) then []
    else
      let fromLen := length from - 1 in
      let toLen := length to - 1 in
      let len := Nat.min fromLen toLen in
      let '(i, lastCommonSep1) := common_loop (drop 1 from) (drop 1 to) 0 0 in
      let to_at := to !! (1 + i) in
      let from_at := from !! (1 + i) in
      let is_slash (c : option ascii) :=
        match c with Some c => is_sep c | None => false end in
      if (i =? len)%nat && (len <? toLen)%nat && is_slash to_at then
        drop (1 + i + 1) to
      else if (i =? len)%nat && (len <? toLen)%nat && (i =? 0)%nat then
        drop (1 + i) to
      else
        let lastCommonSep1 :=
          if (i =? len)%nat && negb (len <? toLen)%nat
             && (len <? fromLen)%nat then
            if is_slash from_at then S i
            else if (i =? 0)%nat then 1 else lastCommonSep1
          else lastCommonSep1 in
        up_levels (drop (1 + lastCommonSep1) from)
        ++ drop lastCommonSep1 to.

(** [path.posix.isAbsolute(path)]. *)
Definition isAbsolute (path : list ascii) : bool :=
  match path with
  | c :: _ => is_sep c
  | [] => false
  end.

(** Lines 310-312, under the test [this.jest && compiledTests] of line 307:
    the directory of the compiled tests and the directory of their
    sources. *)
Definition libtest (cwd libdir srcdir testdir : list ascii) : list ascii :=
  let testout := relative cwd srcdir testdir in
  join [libdir; testout].

Definition srctest (testdir : list ascii) : list ascii := testdir.

End SnapshotRoots.

(** * Properties *)

(** ** ConfigMerger *)

Section ConfigMergerProperties.

Import ConfigMerger.

Implicit Types (a b c : TypescriptConfigOptions).
Implicit Types (fs : list TypescriptConfigOptions).
Implicit Types (options : list (option TypescriptConfigOptions)).

Lemma definedOptions_Some fs : definedOptions (Some <$> fs) = fs.
Proof.
  unfold definedOptions. induction fs as [|f fs IH]; [done|].
  rewrite fmap_cons. simpl. by f_equal.
Qed.

Lemma definedOptions_app options1 options2 :
  definedOptions (options1 ++ options2)
  = definedOptions options1 ++ definedOptions options2.
Proof. unfold definedOptions. apply omap_app. Qed.

Lemma definedOptions_replicate_None n :
  definedOptions (replicate n None) = [].
Proof. unfold definedOptions. induction n; simpl; auto. Qed.

(** Folding from any accumulator: the lists grow at the right end. *)
Lemma foldl_merge_step_include acc fs :
  include_or_empty (foldl merge_step acc fs)
  = include_or_empty acc ++ concat (include_or_empty <$> fs).
Proof.
  revert acc. induction fs as [|f fs IH]; intros acc; simpl.
  - by rewrite app_nil_r.
  - rewrite IH. unfold include_or_empty at 1. simpl. by rewrite <- app_assoc.
Qed.

Lemma foldl_merge_step_exclude acc fs :
  exclude_or_empty (foldl merge_step acc fs)
  = exclude_or_empty acc ++ concat (exclude_or_empty <$> fs).
Proof.
  revert acc. induction fs as [|f fs IH]; intros acc; simpl.
  - by rewrite app_nil_r.
  - rewrite IH. unfold exclude_or_empty at 1. simpl. by rewrite <- app_assoc.
Qed.

(** After one step both lists are present. *)
Lemma foldl_merge_step_present acc f fs :
  include (foldl merge_step acc (f :: fs))
  = Some (include_or_empty (foldl merge_step acc (f :: fs)))
  ∧ exclude (foldl merge_step acc (f :: fs))
    = Some (exclude_or_empty (foldl merge_step acc (f :: fs))).
Proof.
  revert acc f. induction fs as [|g fs IH]; intros acc f.
  - by simpl.
  - change (foldl merge_step acc (f :: g :: fs))
      with (foldl merge_step (merge_step acc f) (g :: fs)).
    apply IH.
Qed.

Lemma foldl_merge_step_compilerOptions acc fs k :
  compilerOptions (foldl merge_step acc fs) !! k
  = match compilerOptions (foldl merge_step initial fs) !! k with
    | Some v => Some v
    | None => compilerOptions acc !! k
    end.
Proof.
  revert acc. induction fs as [|f fs IH]; intros acc; simpl.
  - by rewrite lookup_empty.
  - rewrite (IH (merge_step acc f)), (IH (merge_step initial f)).
    destruct (compilerOptions (foldl merge_step initial fs) !! k); [done|].
    simpl. unfold spread. rewrite !lookup_union, lookup_empty.
    by destruct (compilerOptions f !! k), (compilerOptions acc !! k).
Qed.

Lemma spread_prop_assoc {A} (x y z : option A) :
  spread_prop x (spread_prop y z) = spread_prop (spread_prop x y) z.
Proof. by destruct z. Qed.

Lemma spread_prop_None_l {A} (x : option A) : spread_prop None x = x.
Proof. by destruct x. Qed.

Lemma spread_assoc (x y z : gmap string json) :
  spread x (spread y z) = spread (spread x y) z.
Proof. unfold spread. by rewrite (assoc_L (∪)). Qed.

Lemma spread_empty_l (x : gmap string json) : spread ∅ x = x.
Proof. unfold spread. by rewrite (right_id_L ∅ (∪)). Qed.

Lemma spread_empty_r (x : gmap string json) : spread x ∅ = x.
Proof. unfold spread. by rewrite (left_id_L ∅ (∪)). Qed.

Lemma merge_step_assoc a b c :
  merge_step a (merge_step b c) = merge_step (merge_step a b) c.
Proof.
  unfold merge_step, include_or_empty, exclude_or_empty. simpl.
  by rewrite spread_prop_assoc, spread_assoc, !(assoc_L (++)).
Qed.

(** A fragment that has both lists goes through one merge unchanged. *)
Lemma merge_step_initial_present a i e :
  include a = Some i → exclude a = Some e → merge_step initial a = a.
Proof.
  destruct a as [fn inc exc co]. simpl. intros -> ->.
  unfold merge_step, include_or_empty, exclude_or_empty. simpl.
  by rewrite spread_prop_None_l, spread_empty_l.
Qed.

Lemma merge_step_initial_r a i e :
  include a = Some i → exclude a = Some e → merge_step a initial = a.
Proof.
  destruct a as [fn inc exc co]. simpl. intros -> ->.
  unfold merge_step, include_or_empty, exclude_or_empty. simpl.
  by rewrite spread_empty_r, !app_nil_r.
Qed.

Lemma merge_step_initial_l a b :
  merge_step initial (merge_step a b) = merge_step a b.
Proof. by eapply merge_step_initial_present. Qed.

Lemma merge_step_initial_absorb a b :
  merge_step a (merge_step initial b) = merge_step a b.
Proof.
  unfold merge_step, include_or_empty, exclude_or_empty. simpl.
  by rewrite spread_prop_None_l, spread_empty_l.
Qed.

Lemma foldl_merge_step_cons acc f fs :
  foldl merge_step acc (f :: fs)
  = merge_step acc (foldl merge_step initial (f :: fs)).
Proof.
  revert f. induction fs as [|g fs IH] using rev_ind; intros f.
  - simpl. by rewrite merge_step_initial_absorb.
  - rewrite app_comm_cons, !foldl_snoc, IH. by rewrite merge_step_assoc.
Qed.

Lemma merge_present f fs :
  ∃ i e,
    include (foldl merge_step initial (f :: fs)) = Some i
    ∧ exclude (foldl merge_step initial (f :: fs)) = Some e.
Proof.
  destruct (foldl_merge_step_present initial f fs) as [Hi He]. eauto.
Qed.

(** C4: for every list of defined fragments, the merged [include] is the
    concatenation, left to right, of the fragments' [include] lists, an
    absent list counting as the empty one, with order and duplicates kept;
    the same holds for [exclude].  With at least one fragment the merged
    property holds that list itself.  In particular merging
    [A = {include: [x]}] and [B = {include: [y]}] gives [[x, y]] in one order
    and [[y, x]] in the other, and merging [A] with itself gives [[x, x]];
    for [exclude], the lists [xs] and [ys] give [xs ++ ys] in one order,
    [ys ++ xs] in the other and [xs ++ xs] for [xs] with itself; and a
    fragment that has neither list adds nothing to either. *)
Theorem merge_include_exclude_concat :
  ∀ fs,
    default [] (include (mergeTsconfigOptions (Some <$> fs)))
    = concat ((λ f, default [] (include f)) <$> fs)
    ∧ default [] (exclude (mergeTsconfigOptions (Some <$> fs)))
      = concat ((λ f, default [] (exclude f)) <$> fs)
    ∧ (∀ f,
         include (mergeTsconfigOptions (Some <$> f :: fs))
         = Some (concat ((λ g, default [] (include g)) <$> f :: fs))
         ∧ exclude (mergeTsconfigOptions (Some <$> f :: fs))
           = Some (concat ((λ g, default [] (exclude g)) <$> f :: fs)))
    ∧ (∀ (x y : string) fnA excA coA fnB excB coB,
         let A := mkOptions fnA (Some [x]) excA coA in
         let B := mkOptions fnB (Some [y]) excB coB in
         include (mergeTsconfigOptions [Some A; Some B]) = Some [x; y]
         ∧ include (mergeTsconfigOptions [Some B; Some A]) = Some [y; x]
         ∧ include (mergeTsconfigOptions [Some A; Some A]) = Some [x; x])
    ∧ (∀ (xs ys : list string) fnA incA coA fnB incB coB,
         let A := mkOptions fnA incA (Some xs) coA in
         let B := mkOptions fnB incB (Some ys) coB in
         exclude (mergeTsconfigOptions [Some A; Some B]) = Some (xs ++ ys)
         ∧ exclude (mergeTsconfigOptions [Some B; Some A]) = Some (ys ++ xs)
         ∧ exclude (mergeTsconfigOptions [Some A; Some A]) = Some (xs ++ xs))
    ∧ (∀ (xs ys : list string) fnA coA fnB coB,
         let A := mkOptions fnA None None coA in
         let B := mkOptions fnB (Some xs) (Some ys) coB in
         include (mergeTsconfigOptions [Some A; Some B]) = Some xs
         ∧ exclude (mergeTsconfigOptions [Some A; Some B]) = Some ys
         ∧ include (mergeTsconfigOptions [Some B; Some A]) = Some xs
         ∧ exclude (mergeTsconfigOptions [Some B; Some A]) = Some ys
         ∧ include (mergeTsconfigOptions [Some A; Some A]) = Some []
         ∧ exclude (mergeTsconfigOptions [Some A; Some A]) = Some []).
Proof.
  intros fs. unfold mergeTsconfigOptions.
  split_and!; [| |intros f; split|done..|].
  - rewrite definedOptions_Some.
    exact (foldl_merge_step_include initial fs).
  - rewrite definedOptions_Some.
    exact (foldl_merge_step_exclude initial fs).
  - rewrite definedOptions_Some.
    destruct (foldl_merge_step_present initial f fs) as [-> _].
    f_equal. exact (foldl_merge_step_include initial (f :: fs)).
  - rewrite definedOptions_Some.
    destruct (foldl_merge_step_present initial f fs) as [_ ->].
    f_equal. exact (foldl_merge_step_exclude initial (f :: fs)).
  - intros xs ys fnA coA fnB coB. cbn. by rewrite !app_nil_r.
Qed.

(** The globs of a project and of its user: [exclude] is
    [[node_modules, lib, tmp]], and a glob given twice stays twice. *)
Example merge_exclude_example :
  let base := mkOptions None (Some ["src/**/*.ts"])
                (Some ["node_modules"; "lib"]) ∅ in
  let user := mkOptions None (Some ["src/**/*.ts"]) (Some ["tmp"]) ∅ in
  exclude (mergeTsconfigOptions [Some base; Some user])
  = Some ["node_modules"; "lib"; "tmp"]
  ∧ exclude (mergeTsconfigOptions [Some user; Some base])
    = Some ["tmp"; "node_modules"; "lib"]
  ∧ include (mergeTsconfigOptions [Some base; Some user])
    = Some ["src/**/*.ts"; "src/**/*.ts"].
Proof. done. Qed.

(** C5: merging [A] then [B], the merged [compilerOptions] holds, for each
    key of [B]'s options, [B]'s value, and for each other key of [A]'s
    options, [A]'s value, and nothing else; the same holds for the last
    fragment of a longer list against the merge of those before it.  Values
    are replaced whole: [{x: 1, y: 2}] and [{y: 3}] give [{x: 1, y: 3}], and
    [{paths: {a: 1, b: 2}}] and [{paths: {b: 3}}] give [{paths: {b: 3}}]. *)
Theorem merge_compilerOptions_later_wins :
  ∀ a b (k : string),
    compilerOptions (mergeTsconfigOptions [Some a; Some b]) !! k
    = match compilerOptions b !! k with
      | Some v => Some v
      | None => compilerOptions a !! k
      end
    ∧ (∀ options,
         compilerOptions (mergeTsconfigOptions (options ++ [Some b])) !! k
         = match compilerOptions b !! k with
           | Some v => Some v
           | None => compilerOptions (mergeTsconfigOptions options) !! k
           end)
    ∧ (∀ fnA incA excA fnB incB excB,
         let A := mkOptions fnA incA excA
                    {[ "x" := JNum 1; "y" := JNum 2 ]} in
         let B := mkOptions fnB incB excB {[ "y" := JNum 3 ]} in
         compilerOptions (mergeTsconfigOptions [Some A; Some B])
         = {[ "x" := JNum 1; "y" := JNum 3 ]})
    ∧ (let A := mkOptions None None None
                  {[ "paths" := JObj [("a", JNum 1); ("b", JNum 2)] ]} in
       let B := mkOptions None None None
                  {[ "paths" := JObj [("b", JNum 3)] ]} in
       compilerOptions (mergeTsconfigOptions [Some A; Some B])
       = {[ "paths" := JObj [("b", JNum 3)] ]}).
Proof.
  intros a b k. unfold mergeTsconfigOptions. split_and!.
  - simpl. unfold spread. rewrite !lookup_union, lookup_empty.
    by destruct (compilerOptions b !! k), (compilerOptions a !! k).
  - intros options. rewrite definedOptions_app. simpl.
    rewrite foldl_snoc. simpl. unfold spread. rewrite lookup_union.
    by destruct (compilerOptions b !! k),
      (compilerOptions (foldl merge_step initial (definedOptions options)) !! k).
  - intros. simpl. unfold spread. apply map_eq. intros j.
    rewrite !lookup_union, lookup_empty.
    destruct (decide (j = "y")) as [->|Hy]; [by simplify_map_eq|].
    destruct (decide (j = "x")) as [->|Hx]; by simplify_map_eq.
  - simpl. unfold spread. apply map_eq. intros j.
    rewrite !lookup_union, lookup_empty.
    destruct (decide (j = "paths")) as [->|Hy]; by simplify_map_eq.
Qed.

(** C6, against the claim: when every entry is absent the merged fragment has
    no [include] property at all, so its [include] is not the empty list; the
    same holds for [exclude]. *)
Lemma merge_all_absent_has_no_lists :
  mergeTsconfigOptions [] = mkOptions None None None ∅
  ∧ mergeTsconfigOptions [None; None] = mkOptions None None None ∅
  ∧ include (mergeTsconfigOptions []) ≠ Some []
  ∧ exclude (mergeTsconfigOptions [None; None]) ≠ Some [].
Proof. by split_and!. Qed.

(** C6, amended: absent entries are skipped, so that
    [merge([undefined, A, undefined])] is [merge([A])] and, for any list,
    only its defined entries count; when every entry is absent (the empty
    list included) the result is the initial accumulator
    [{ compilerOptions: {} }]: an empty options object and no [include],
    [exclude] or [fileName] property. *)
Theorem merge_skips_absent :
  ∀ a options n,
    mergeTsconfigOptions [None; Some a; None] = mergeTsconfigOptions [Some a]
    ∧ mergeTsconfigOptions options
      = mergeTsconfigOptions (Some <$> definedOptions options)
    ∧ mergeTsconfigOptions (replicate n None) = mkOptions None None None ∅
    ∧ compilerOptions (mergeTsconfigOptions (replicate n None)) = ∅.
Proof.
  intros a options n. unfold mergeTsconfigOptions. split_and!.
  - done.
  - by rewrite definedOptions_Some.
  - by rewrite definedOptions_replicate_None.
  - by rewrite definedOptions_replicate_None.
Qed.

(** C7, against the claim: merging the merge of the empty list once more
    does not give the same fragment, since the second merge adds empty
    [include] and [exclude] lists to a fragment that had none. *)
Lemma remerge_of_empty_differs :
  mergeTsconfigOptions [Some (mergeTsconfigOptions [])]
  = mkOptions None (Some []) (Some []) ∅
  ∧ mergeTsconfigOptions [] = mkOptions None None None ∅
  ∧ mergeTsconfigOptions [Some (mergeTsconfigOptions [])]
    ≠ mergeTsconfigOptions [].
Proof.
  assert (mergeTsconfigOptions [Some (mergeTsconfigOptions [])]
          = mkOptions None (Some []) (Some []) ∅) as Hre.
  { unfold mergeTsconfigOptions. simpl. unfold merge_step. simpl.
    by rewrite spread_empty_l. }
  split_and!; [done|done|].
  rewrite Hre. unfold mergeTsconfigOptions. simpl. intros H. by injection H.
Qed.

(** C7, amended: for every list with at least one defined fragment, merging
    its merge once more gives the same fragment; for all fragments [A], [B],
    [C], [merge([merge([A, B]), C])] is [merge([A, B, C])]; for all lists,
    merging the two merges gives the merge of the concatenation as soon as
    one of the lists has a defined fragment, and in every case once that
    merge is itself merged again.  Merging the merge of a list with no
    defined fragment turns the absent [include] and [exclude] into empty
    lists. *)
Theorem remerge_stable :
  ∀ options1 a options2 b c,
    let fs := options1 ++ Some a :: options2 in
    mergeTsconfigOptions [Some (mergeTsconfigOptions fs)]
    = mergeTsconfigOptions fs
    ∧ mergeTsconfigOptions
        [Some (mergeTsconfigOptions [Some a; Some b]); Some c]
      = mergeTsconfigOptions [Some a; Some b; Some c]
    ∧ (∀ options,
         mergeTsconfigOptions
           [Some (mergeTsconfigOptions fs); Some (mergeTsconfigOptions options)]
         = mergeTsconfigOptions (fs ++ options)
         ∧ mergeTsconfigOptions
             [Some (mergeTsconfigOptions options); Some (mergeTsconfigOptions fs)]
           = mergeTsconfigOptions (options ++ fs))
    ∧ (∀ xs ys,
         mergeTsconfigOptions
           [Some (mergeTsconfigOptions xs); Some (mergeTsconfigOptions ys)]
         = mergeTsconfigOptions [Some (mergeTsconfigOptions (xs ++ ys))])
    ∧ (∀ n,
         mergeTsconfigOptions [Some (mergeTsconfigOptions (replicate n None))]
         = mkOptions None (Some []) (Some []) ∅).
Proof.
  intros options1 a options2 b c fs.
  assert (∃ g gs, definedOptions fs = g :: gs) as (g & gs & Hfs).
  { unfold fs. rewrite definedOptions_app. simpl.
    destruct (definedOptions options1) as [|g gs]; simpl; eauto. }
  destruct (merge_present g gs) as (i & e & Hi & He).
  assert (mergeTsconfigOptions [Some (mergeTsconfigOptions fs)]
          = mergeTsconfigOptions fs) as Hre.
  { unfold mergeTsconfigOptions at 1. simpl.
    unfold mergeTsconfigOptions. rewrite Hfs.
    by eapply merge_step_initial_present. }
  assert (∀ x y, mergeTsconfigOptions [Some x; Some y]
                 = merge_step (merge_step initial x) y) as Hpair by done.
  assert (∀ x, mergeTsconfigOptions [Some x] = merge_step initial x)
    as Hone by done.
  split_and!.
  - exact Hre.
  - unfold mergeTsconfigOptions. simpl. by rewrite merge_step_initial_l.
  - intros options. rewrite !Hpair. split.
    + rewrite <- Hone, Hre. unfold mergeTsconfigOptions.
      rewrite definedOptions_app, foldl_app, Hfs.
      destruct (definedOptions options) as [|h t].
      * simpl foldl at 2 3. by eapply merge_step_initial_r.
      * by rewrite (foldl_merge_step_cons (foldl _ _ _)).
    + unfold mergeTsconfigOptions.
      rewrite definedOptions_app, foldl_app, Hfs.
      rewrite (foldl_merge_step_cons (foldl _ _ _)).
      rewrite <- merge_step_assoc. apply merge_step_initial_l.
  - intros xs ys. rewrite Hpair, Hone. unfold mergeTsconfigOptions.
    rewrite definedOptions_app, foldl_app.
    destruct (definedOptions ys) as [|h t].
    + simpl foldl at 2 3. by eapply merge_step_initial_r.
    + rewrite (foldl_merge_step_cons (foldl _ _ _)).
      by rewrite <- merge_step_assoc.
  - intros n. unfold mergeTsconfigOptions.
    rewrite definedOptions_replicate_None. simpl.
    unfold merge_step. simpl. by rewrite spread_empty_l.
Qed.

End ConfigMergerProperties.

(** ** TaskGraphBuilder *)

Section TaskGraphBuilderProperties.

Import TaskGraphBuilder.

Implicit Types (options : TypeScriptProjectOptions) (super : NodeProject).

Lemma string_app_cons a (s1 s2 : string) :
  String a s1 +:+ s2 = String a (s1 +:+ s2).
Proof. reflexivity. Qed.

Lemma prefix_iff_app (p s : string) :
  String.prefix p s = true ↔ ∃ rest, s = p +:+ rest.
Proof.
  revert s. induction p as [|a p IH]; intros s.
  - split; [intros _; by exists s|by destruct s].
  - destruct s as [|b s]; simpl.
    + split; [done|intros [rest Hrest]; discriminate].
    + destruct (ascii_dec a b) as [->|Hne].
      * rewrite IH. split; intros [rest Hrest]; exists rest.
        -- by rewrite Hrest.
        -- rewrite string_app_cons in Hrest. by injection Hrest.
      * split; [done|]. intros [rest Hrest].
        rewrite string_app_cons in Hrest. injection Hrest. congruence.
Qed.

Lemma string_app_length (s1 s2 : string) :
  String.length (s1 +:+ s2) = String.length s1 + String.length s2.
Proof.
  induction s1 as [|a s1 IH]; [done|].
  rewrite string_app_cons. simpl. by rewrite IH.
Qed.

Lemma string_app_assoc (s1 s2 s3 : string) :
  (s1 +:+ s2) +:+ s3 = s1 +:+ (s2 +:+ s3).
Proof.
  induction s1 as [|a s1 IH]; [done|].
  rewrite !string_app_cons. by rewrite IH.
Qed.

(** The steps of the build task once the constructor is done: the steps it
    had, then the two spawns in the order of the policy, then the spawn of
    the package task when there is one. *)
Lemma constructor_buildTask_steps options super :
  steps (buildTask (node (TypeScriptProject_constructor options super)))
  = steps (buildTask super)
    ++ (if compileBeforeTest options
        then [Spawn (name (compileTask super)); Spawn (name (testTask super))]
        else [Spawn (name (testTask super)); Spawn (name (compileTask super))])
    ++ (if packageEnabled options then [Spawn "package"] else []).
Proof.
  unfold TypeScriptProject_constructor. simpl.
  destruct (compileBeforeTest options), (packageEnabled options); simpl;
    by rewrite <- ?app_assoc.
Qed.

(** C3: for every pair of flags, a build task without steps ends with
    exactly [spawn(compile), spawn(test)] when [compileFirst] holds and
    [spawn(test), spawn(compile)] when it does not, followed in both orders
    by [spawn(package)] when [packagingEnabled] holds; in general these
    spawns come after the steps that the build task already had, with the
    flags read from the options ([compileBeforeTest ?? compiledTests] and
    [package ?? true]). *)
Theorem build_task_spawn_order :
  ∀ (compileFirst packagingEnabled : bool) libdir srcdir testdir
    compile test build_name build_description build_category jest pm,
    let options :=
      mkProjectOptions libdir srcdir testdir
        (Some compileFirst) (Some packagingEnabled) in
    let super :=
      mkNodeProject compile test
        (mkTask build_name build_description build_category []) jest pm in
    steps (buildTask (node (TypeScriptProject_constructor options super)))
    = (if compileFirst
       then [Spawn (name compile); Spawn (name test)]
       else [Spawn (name test); Spawn (name compile)])
      ++ (if packagingEnabled then [Spawn "package"] else [])
    ∧ (∀ options' super',
         steps (buildTask (node (TypeScriptProject_constructor options' super')))
         = steps (buildTask super')
           ++ (if compileBeforeTest options'
               then [Spawn (name (compileTask super'));
                     Spawn (name (testTask super'))]
               else [Spawn (name (testTask super'));
                     Spawn (name (compileTask super'))])
           ++ (if packageEnabled options' then [Spawn "package"] else [])).
Proof.
  intros. split.
  - by rewrite constructor_buildTask_steps.
  - intros. apply constructor_buildTask_steps.
Qed.

(** C8: when the tests run before the compilation and the layout is the one
    for which the constructor injects the cleanup (a jest component, and
    tests that are not compiled with the sources), the test task's steps are
    the cleanup step ["rm -fr <libdir>/"] followed by the steps it had. *)
Theorem cleanup_is_prepended :
  ∀ options super,
    jest super = true →
    compiledTests options = false →
    compileBeforeTest options = false →
    steps (testTask (node (TypeScriptProject_constructor options super)))
    = Exec ("rm -fr " +:+ default "lib" (opt_libdir options) +:+ "/")
        :: steps (testTask super).
Proof.
  intros options super Hjest Hcompiled Hbefore.
  unfold TypeScriptProject_constructor. simpl.
  by rewrite Hjest, Hcompiled, Hbefore.
Qed.

(** In every other case the statements up to line 383 leave the steps of the
    test task as they are: in particular no cleanup is injected when the
    tests are compiled with the sources ([testdir] under [srcdir]). *)
Lemma no_cleanup_otherwise options super :
  jest super = false ∨ compiledTests options = true
  ∨ compileBeforeTest options = true →
  steps (testTask (node (TypeScriptProject_constructor options super)))
  = steps (testTask super).
Proof.
  unfold TypeScriptProject_constructor. simpl.
  intros [-> | [-> | ->]]; [done| |];
    by destruct (jest super), (compiledTests options).
Qed.

(** The example of the specification: a test task with the step ["jest"]
    ends with ["rm -fr lib/", "jest"], and not with the cleanup last. *)
Lemma cleanup_is_prepended_example :
  let options := mkProjectOptions None None None None None in
  let super :=
    mkNodeProject (mkTask "compile" None None [])
      (mkTask "test" None None [Exec "jest"])
      (mkTask "build" None None []) true "yarn" in
  jest super = true
  ∧ compiledTests options = false
  ∧ compileBeforeTest options = false
  ∧ steps (testTask (node (TypeScriptProject_constructor options super)))
    = [Exec "rm -fr lib/"; Exec "jest"]
  ∧ steps (testTask (node (TypeScriptProject_constructor options super)))
    ≠ [Exec "jest"; Exec "rm -fr lib/"].
Proof.
  intros options super.
  assert (steps (testTask (node (TypeScriptProject_constructor options super)))
          = [Exec "rm -fr lib/"; Exec "jest"]) as Hsteps.
  { apply (cleanup_is_prepended options super); reflexivity. }
  split; [reflexivity|]. split; [reflexivity|]. split; [reflexivity|].
  split; [exact Hsteps|]. rewrite Hsteps. discriminate.
Defined.

(** C10: when [compileBeforeTest] is not supplied, the compile-first order
    is chosen exactly when [testdir] is [srcdir], then ["/"], then anything;
    so a [testdir] equal to [srcdir], or one that only starts with the
    characters of [srcdir] (["srcfoo"] for ["src"]), gives the
    test-before-compile order. *)
Theorem default_order_follows_testdir :
  ∀ options super,
    opt_compileBeforeTest options = None →
    let srcdir := default "src" (opt_srcdir options) in
    let testdir := default "test" (opt_testdir options) in
    (compileBeforeTest options = true
     ↔ ∃ rest, testdir = srcdir +:+ "/" +:+ rest)
    ∧ (testdir = srcdir → compileBeforeTest options = false)
    ∧ (srcdir = "src" → testdir = "srcfoo" → compileBeforeTest options = false)
    ∧ steps (buildTask (node (TypeScriptProject_constructor options super)))
      = steps (buildTask super)
        ++ (if String.prefix (srcdir +:+ "/") testdir
            then [Spawn (name (compileTask super));
                  Spawn (name (testTask super))]
            else [Spawn (name (testTask super));
                  Spawn (name (compileTask super))])
        ++ (if packageEnabled options then [Spawn "package"] else []).
Proof.
  intros options super Hnone srcdir testdir.
  assert (compileBeforeTest options = String.prefix (srcdir +:+ "/") testdir)
    as Hdef.
  { unfold compileBeforeTest, compiledTests, startsWith, sep.
    by rewrite Hnone. }
  split_and!.
  - rewrite Hdef, prefix_iff_app.
    split; intros [rest Hrest]; exists rest;
      by rewrite Hrest, ?string_app_assoc.
  - intros Heq. rewrite Hdef. apply not_true_is_false.
    rewrite prefix_iff_app. intros [rest Hrest].
    apply (f_equal String.length) in Hrest.
    rewrite Heq, !string_app_length in Hrest. simpl in Hrest. lia.
  - intros Hsrc Htest. by rewrite Hdef, Hsrc, Htest.
  - by rewrite constructor_buildTask_steps, Hdef.
Qed.

Lemma default_order_follows_testdir_example :
  let options := mkProjectOptions None (Some "src") (Some "src/test") None None in
  let super :=
    mkNodeProject (mkTask "compile" None None [])
      (mkTask "test" None None [Exec "jest"])
      (mkTask "build" None None []) true "yarn" in
  compileBeforeTest options = true
  ∧ compileBeforeTest
      (mkProjectOptions None (Some "src") (Some "srcfoo") None None) = false
  ∧ compileBeforeTest
      (mkProjectOptions None (Some "src") (Some "src") None None) = false
  ∧ steps (buildTask (node (TypeScriptProject_constructor options super)))
    = [Spawn "compile"; Spawn "test"; Spawn "package"].
Proof.
  intros options super.
  destruct (default_order_follows_testdir options super eq_refl)
    as (Hiff & _ & _ & Hsteps).
  destruct (default_order_follows_testdir
              (mkProjectOptions None (Some "src") (Some "srcfoo") None None)
              super eq_refl) as (_ & _ & Hfoo & _).
  destruct (default_order_follows_testdir
              (mkProjectOptions None (Some "src") (Some "src") None None)
              super eq_refl) as (_ & Hsame & _ & _).
  split; [apply Hiff; by exists "test"|].
  split; [by apply Hfoo|].
  split; [by apply Hsame|].
  exact Hsteps.
Defined.

End TaskGraphBuilderProperties.

(** ** ConfigMerger on a store: inputs are left as they are *)

Section ConfigMergerStoreProperties.

Import ConfigMerger ConfigMergerStore.

Implicit Types (σ : store) (l r : loc).

Lemma alloc_spec o σ l σ' :
  alloc o σ = (l, σ') → σ !! l = None ∧ σ' = <[l := o]> σ ∧ σ ⊆ σ'.
Proof.
  unfold alloc. intros [= <- <-].
  assert (σ !! fresh (dom σ) = None) as Hfresh.
  { apply not_elem_of_dom, is_fresh. }
  split_and!; [done|done|]. by apply insert_subseteq.
Qed.

#[local] Opaque alloc.

Lemma read_array_mono σ σ' a items :
  σ ⊆ σ' → read_array σ a = Some items → read_array σ' a = Some items.
Proof.
  intros Hsub. destruct a as [l|]; simpl; [|done].
  destruct (σ !! l) as [o|] eqn:Hl; [|done].
  by rewrite (lookup_weaken _ _ _ _ Hl Hsub).
Qed.

Lemma read_dict_mono σ σ' l d :
  σ ⊆ σ' → read_dict σ l = Some d → read_dict σ' l = Some d.
Proof.
  intros Hsub. unfold read_dict.
  destruct (σ !! l) as [o|] eqn:Hl; [|done].
  by rewrite (lookup_weaken _ _ _ _ Hl Hsub).
Qed.

Lemma load_array_mono σ σ' a x :
  σ ⊆ σ' → load_array σ a = Some x → load_array σ' a = Some x.
Proof.
  intros Hsub. destruct a as [l|]; simpl; [|done].
  destruct (σ !! l) as [o|] eqn:Hl; [|done].
  by rewrite (lookup_weaken _ _ _ _ Hl Hsub).
Qed.

(** A fragment reads the same in every larger store. *)
Lemma load_mono σ σ' l f :
  σ ⊆ σ' → load σ l = Some f → load σ' l = Some f.
Proof.
  intros Hsub. unfold load.
  destruct (σ !! l) as [o|] eqn:Hl; [|done].
  rewrite (lookup_weaken _ _ _ _ Hl Hsub).
  destruct o as [| |fn inc exc co]; try done.
  destruct (load_array σ inc) as [i|] eqn:Hi; [|done].
  destruct (load_array σ exc) as [e|] eqn:He; [|done].
  destruct (read_dict σ co) as [d|] eqn:Hd; [|done].
  rewrite (load_array_mono _ _ _ _ Hsub Hi), (load_array_mono _ _ _ _ Hsub He),
    (read_dict_mono _ _ _ _ Hsub Hd). done.
Qed.

Lemma load_array_read σ a x :
  load_array σ a = Some x → read_array σ a = Some (default [] x).
Proof.
  destruct a as [l|]; simpl; [|by intros [= <-]].
  destruct (σ !! l) as [[items| |]|]; try done. by intros [= <-].
Qed.

Lemma merge_step_spec σ previous current a b :
  load σ previous = Some a →
  load σ current = Some b →
  ∃ r σ',
    ConfigMergerStore.merge_step σ previous current = Some (r, σ')
    ∧ σ ⊆ σ'
    ∧ σ !! r = None
    ∧ new_parts σ σ' r
    ∧ load σ' r = Some (ConfigMerger.merge_step a b).
Proof.
  unfold load at 1 2. unfold ConfigMergerStore.merge_step.
  destruct (σ !! previous) as [[| |fn_p inc_p exc_p co_p]|]; try done.
  destruct (σ !! current) as [[| |fn_c inc_c exc_c co_c]|];
    try by (destruct (load_array σ inc_p), (load_array σ exc_p),
              (read_dict σ co_p)).
  destruct (load_array σ inc_p) as [ip|] eqn:Hip; [|done].
  destruct (load_array σ exc_p) as [ep|] eqn:Hep; [|done].
  destruct (read_dict σ co_p) as [dp|] eqn:Hdp; [|done].
  destruct (load_array σ inc_c) as [ic|] eqn:Hic; [|done].
  destruct (load_array σ exc_c) as [ec|] eqn:Hec; [|done].
  destruct (read_dict σ co_c) as [dc|] eqn:Hdc; [|done].
  simpl. intros [= <-] [= <-].
  rewrite (load_array_read _ _ _ Hip), (load_array_read _ _ _ Hic),
    (load_array_read _ _ _ Hep), (load_array_read _ _ _ Hec). simpl.
  destruct (alloc (Array (default [] ip ++ default [] ic)) σ)
    as [inc σ1] eqn:H1.
  destruct (alloc (Array (default [] ep ++ default [] ec)) σ1)
    as [exc σ2] eqn:H2.
  destruct (alloc (Dict (spread dp dc)) σ2) as [co σ3] eqn:H3.
  destruct (alloc (Options (spread_prop fn_p fn_c) (Some inc) (Some exc) co) σ3)
    as [r σ4] eqn:H4.
  apply alloc_spec in H1 as (Hinc & -> & Hsub1).
  apply alloc_spec in H2 as (Hexc & -> & Hsub2).
  apply alloc_spec in H3 as (Hco & -> & Hsub3).
  apply alloc_spec in H4 as (Hr & -> & Hsub4).
  assert (inc ≠ exc) as Hne1 by (intros ->; by rewrite lookup_insert_eq in Hexc).
  assert (exc ≠ co) as Hne2 by (intros ->; by rewrite lookup_insert_eq in Hco).
  assert (co ≠ r) as Hne3 by (intros ->; by rewrite lookup_insert_eq in Hr).
  assert (inc ≠ co) as Hne4.
  { intros ->. rewrite lookup_insert_ne, lookup_insert_eq in Hco; done. }
  assert (exc ≠ r) as Hne5.
  { intros ->. rewrite lookup_insert_ne, lookup_insert_eq in Hr; done. }
  assert (inc ≠ r) as Hne6.
  { intros ->.
    rewrite (lookup_insert_ne _ co), (lookup_insert_ne _ exc),
      lookup_insert_eq in Hr; done. }
  rewrite lookup_insert_ne in Hexc by done.
  rewrite !lookup_insert_ne in Hco by done.
  rewrite !lookup_insert_ne in Hr by done.
  eexists _, _. split; [done|]. split_and!.
  - etrans; [exact Hsub1|]. etrans; [exact Hsub2|].
    etrans; [exact Hsub3|]. exact Hsub4.
  - done.
  - exists (spread_prop fn_p fn_c), (Some inc), (Some exc), co.
    rewrite lookup_insert_eq. split_and!; [done| | |done].
    + by intros ? [= <-].
    + by intros ? [= <-].
  - unfold load, read_dict, load_array. by simplify_map_eq.
Qed.

Lemma new_parts_weaken σ0 σ σ' r :
  σ0 ⊆ σ → new_parts σ σ' r → new_parts σ0 σ' r.
Proof.
  intros Hsub (fn & inc & exc & co & Hr & Hinc & Hexc & Hco).
  assert (∀ l, σ !! l = None → σ0 !! l = None) as Hnone.
  { intros l Hl. destruct (σ0 !! l) as [o|] eqn:Hl0; [|done].
    by rewrite (lookup_weaken _ _ _ _ Hl0 Hsub) in Hl. }
  exists fn, inc, exc, co. split_and!; auto.
Qed.

Lemma new_parts_mono σ0 σ σ' r :
  σ ⊆ σ' → new_parts σ0 σ r → new_parts σ0 σ' r.
Proof.
  intros Hsub (fn & inc & exc & co & Hr & Hparts).
  exists fn, inc, exc, co. split; [|done].
  by apply (lookup_weaken _ _ _ _ Hr Hsub).
Qed.

Lemma reduce_spec definedOptions :
  ∀ σ0 σ acc a fs,
    σ0 ⊆ σ →
    σ0 !! acc = None →
    new_parts σ0 σ acc →
    load σ acc = Some a →
    Forall2 (λ l f, load σ l = Some f) definedOptions fs →
    ∃ r σ',
      reduce σ acc definedOptions = Some (r, σ')
      ∧ σ ⊆ σ'
      ∧ σ0 !! r = None
      ∧ new_parts σ0 σ' r
      ∧ load σ' r = Some (foldl ConfigMerger.merge_step a fs).
Proof.
  induction definedOptions as [|current rest IH];
    intros σ0 σ acc a fs Hsub0 Hacc0 Hparts Hacc Hall.
  - apply Forall2_nil_inv_l in Hall as ->. simpl. by eexists _, _.
  - apply Forall2_cons_inv_l in Hall as (f & fs' & Hcur & Hrest & ->).
    destruct (merge_step_spec σ acc current a f Hacc Hcur)
      as (r1 & σ1 & Hstep & Hsub1 & Hr1 & Hparts1 & Hload1).
    simpl. rewrite Hstep. simpl.
    destruct (IH σ0 σ1 r1 (ConfigMerger.merge_step a f) fs')
      as (r & σ' & Hred & Hsub' & Hr & Hparts' & Hload').
    + by etrans.
    + destruct (σ0 !! r1) as [o|] eqn:Hr0; [|done].
      by rewrite (lookup_weaken _ _ _ _ Hr0 Hsub0) in Hr1.
    + by eapply new_parts_weaken.
    + done.
    + eapply Forall2_impl; [exact Hrest|]. intros l g. by apply load_mono.
    + exists r, σ'. split_and!; [done|by etrans|done|done|done].
Qed.

Lemma load_defined σ options :
  Forall (well_formed σ) options →
  ∃ fs,
    Forall2 (λ l f, load σ l = Some f) (omap id options) fs
    ∧ ConfigMerger.definedOptions ((λ e, e ≫= load σ) <$> options) = fs.
Proof.
  unfold ConfigMerger.definedOptions.
  induction 1 as [|entry options Hentry _ (fs & Hall & Hfs)].
  - by exists [].
  - destruct entry as [l|]; simpl.
    + destruct Hentry as [f Hf]. exists (f :: fs).
      rewrite Hf. simpl. split; [by constructor|by f_equal].
    + by exists fs.
Qed.

(** C9: on a store in which every defined entry of the input is a fragment
    with its parts, the merge returns; every object of the store it started
    from is then as it was, so every input fragment still reads the same,
    with the same [include] and [exclude] lists and the same options; the
    returned reference is one that the store did not use, so it differs from
    every input, and the returned fragment's lists and options object are
    new objects too; and it reads as the merge of the inputs. *)
Theorem merge_leaves_inputs_unchanged :
  ∀ σ options,
    Forall (well_formed σ) options →
    ∃ r σ',
      ConfigMergerStore.mergeTsconfigOptions options σ = Some (r, σ')
      ∧ (∀ l o, σ !! l = Some o → σ' !! l = Some o)
      ∧ (∀ l, Some l ∈ options → load σ' l = load σ l ∧ l ≠ r)
      ∧ σ !! r = None
      ∧ new_parts σ σ' r
      ∧ load σ' r
        = Some (ConfigMerger.mergeTsconfigOptions
                  ((λ e, e ≫= load σ) <$> options)).
Proof.
  intros σ options Hwf.
  destruct (load_defined σ options Hwf) as (fs & Hall & Hfs).
  unfold ConfigMergerStore.mergeTsconfigOptions, ConfigMerger.mergeTsconfigOptions.
  rewrite Hfs.
  destruct (alloc (Dict ∅) σ) as [co σ1] eqn:H1.
  destruct (alloc (Options None None None co) σ1) as [acc σ2] eqn:H2.
  apply alloc_spec in H1 as (Hco & -> & Hsub1).
  apply alloc_spec in H2 as (Hacc & -> & Hsub2).
  assert (co ≠ acc) as Hne by (intros ->; by rewrite lookup_insert_eq in Hacc).
  rewrite lookup_insert_ne in Hacc by done.
  set (σ2 := <[acc:=Options None None None co]> (<[co:=Dict ∅]> σ)).
  assert (σ ⊆ σ2) as Hsub by (by etrans).
  destruct (reduce_spec (omap id options) σ σ2 acc ConfigMerger.initial fs)
    as (r & σ' & Hred & Hsub' & Hr & Hparts & Hload).
  - done.
  - done.
  - exists None, None, None, co. unfold σ2.
    rewrite lookup_insert_eq. by split_and!.
  - unfold load, read_dict, load_array, σ2. by simplify_map_eq.
  - eapply Forall2_impl; [exact Hall|]. intros l g. by apply load_mono.
  - assert (σ ⊆ σ') as Hall' by (by etrans).
    exists r, σ'. split_and!; [done| |  |done|done|done].
    + intros l o Hl. by apply (lookup_weaken _ _ _ _ Hl Hall').
    + intros l Hl.
      apply (proj1 (Forall_forall _ _) Hwf) in Hl as [f Hf].
      split.
      * rewrite Hf. by apply (load_mono σ).
      * intros ->. unfold load in Hf. by rewrite Hr in Hf.
Qed.

(** An instance: two fragments that share their [include] array, between
    two absent entries. *)
Lemma merge_leaves_inputs_unchanged_example :
  let σ : store :=
    {[ 1%positive := Options (Some (Some "tsconfig.json"))
                       (Some 2%positive) None 3%positive;
       2%positive := Array ["src/**/*.ts"];
       3%positive := Dict {[ "strict" := JBool true ]};
       4%positive := Options None (Some 2%positive) (Some 5%positive)
                       6%positive;
       5%positive := Array ["node_modules"];
       6%positive := Dict {[ "strict" := JBool false ]} ]} in
  let options := [None; Some 1%positive; Some 4%positive; None] in
  Forall (well_formed σ) options
  ∧ ∃ r σ',
      ConfigMergerStore.mergeTsconfigOptions options σ = Some (r, σ')
      ∧ load σ' 1%positive = load σ 1%positive
      ∧ load σ' 4%positive = load σ 4%positive
      ∧ r ≠ 1%positive ∧ r ≠ 4%positive
      ∧ load σ' r
        = Some (mkOptions (Some (Some "tsconfig.json"))
                  (Some ["src/**/*.ts"; "src/**/*.ts"])
                  (Some ["node_modules"])
                  {[ "strict" := JBool false ]}).
Proof.
  intros σ options.
  assert (Forall (well_formed σ) options) as Hwf.
  { repeat constructor; eexists; vm_compute; reflexivity. }
  split; [exact Hwf|].
  destruct (merge_leaves_inputs_unchanged σ options Hwf)
    as (r & σ' & Hmerge & _ & Hinputs & _ & _ & Hload).
  destruct (Hinputs 1%positive) as [H1 Hr1]; [by repeat constructor|].
  destruct (Hinputs 4%positive) as [H4 Hr4]; [by repeat constructor|].
  exists r, σ'.
  split; [exact Hmerge|]. split; [exact H1|]. split; [exact H4|].
  split; [exact (not_eq_sym Hr1)|]. split; [exact (not_eq_sym Hr4)|].
  rewrite Hload. vm_compute. reflexivity.
Defined.

End ConfigMergerStoreProperties.

(** ** PathRemapper *)

Section PathRemapperProperties.

Import PathRemapper.

Implicit Types (s t pat repl d stem ext seg : list ascii) (c : ascii).

(** *** The model of [path.posix] on the examples of Node's documentation
    and tests *)

Example dirname_examples :
  dirname (chars "/foo/bar/baz/asdf/quux") = chars "/foo/bar/baz/asdf"
  ∧ dirname (chars "/a") = chars "/"
  ∧ dirname (chars "a") = chars "."
  ∧ dirname (chars "") = chars "."
  ∧ dirname (chars "//a") = chars "//"
  ∧ dirname (chars "////") = chars "/"
  ∧ dirname (chars "/a/b/") = chars "/a".
Proof. by vm_compute. Qed.

Example basename_examples :
  basename (chars "/foo/bar/baz/asdf/quux.html") (chars ".html") = chars "quux"
  ∧ basename (chars "aaa/bbb") (chars "bbb") = chars "bbb"
  ∧ basename (chars "aaa/bbb") (chars "bb") = chars "b"
  ∧ basename (chars "aaa/bbb//") (chars "bb") = chars "b"
  ∧ basename (chars "/aaa/bbb") (chars "a/bbb") = chars "bbb"
  ∧ basename (chars ".js") (chars ".js") = chars ""
  ∧ basename (chars "a") (chars ".js") = chars "a"
  ∧ basename (chars "file.js.old") (chars ".js.old") = chars "file"
  ∧ basename (chars "file.js") (chars ".ts") = chars "file.js"
  ∧ basename (chars "js") (chars ".js") = chars "js"
  ∧ basename (chars "aaa/bbb") (chars "/bbb") = chars "bbb"
  ∧ basename (chars "/aaa/bbb") (chars "b") = chars "bb"
  ∧ basename (chars "a") (chars "a") = chars "".
Proof. by vm_compute. Qed.

Example normalize_examples :
  normalize (chars "/foo/bar//baz/asdf/quux/..") = chars "/foo/bar/baz/asdf"
  ∧ normalize (chars "./fixtures///b/../b/c.js") = chars "fixtures/b/c.js"
  ∧ normalize (chars "/foo/../../../bar") = chars "/bar"
  ∧ normalize (chars "a//b//../b") = chars "a/b"
  ∧ normalize (chars "a//b//.") = chars "a/b"
  ∧ normalize (chars "../.../.././.../../../bar") = chars "../../bar"
  ∧ normalize (chars "bar/foo../../") = chars "bar/"
  ∧ normalize (chars "") = chars "."
  ∧ normalize (chars "./") = chars "./".
Proof. by vm_compute. Qed.

Example join_examples :
  join [chars "/foo"; chars "bar"; chars "baz/asdf"; chars "quux"; chars ".."]
  = chars "/foo/bar/baz/asdf"
  ∧ join [chars ""; chars ""] = chars "."
  ∧ join [chars "some"; chars "__tests__"; chars "example.test.js"]
    = chars "some/__tests__/example.test.js"
  ∧ join [chars "."; chars "x/b"; chars ".."; chars "/b/c.js"]
    = chars "x/b/c.js"
  ∧ join [chars "/foo"; chars "../../../bar"] = chars "/bar"
  ∧ join [chars "foo"; chars "../../../bar"] = chars "../../bar"
  ∧ join [chars "foo/x/"; chars "."; chars "bar"] = chars "foo/x/bar"
  ∧ join [chars "."; chars "./"] = chars "./"
  ∧ join [chars ""; chars "/"; chars "/foo"] = chars "/foo"
  ∧ join [chars "foo"; chars ".."] = chars ".".
Proof. by vm_compute. Qed.

Example str_replace_examples :
  str_replace (chars "abcabc") (chars "bc") (chars "X") = chars "aXabc"
  ∧ str_replace (chars "abc") (chars "zz") (chars "X") = chars "abc"
  ∧ str_replace (chars "abc") (chars "") (chars "X") = chars "Xabc"
  ∧ str_replace (chars "abcabc") (chars "bc") (chars "[$&|$$|$`|$'|$1]")
    = chars "a[bc|$|a|abc|$1]abc".
Proof. by vm_compute. Qed.

(** *** Strings *)

Lemma startsWith_app pat s t :
  startsWith pat s = true → startsWith pat (s ++ t) = true.
Proof.
  revert s. induction pat as [|a pat IH]; intros [|b s]; simpl; try done.
  intros [-> Hrest]%andb_true_iff. by rewrite (IH _ Hrest).
Qed.

Lemma startsWith_length pat s :
  startsWith pat s = true → (length pat ≤ length s)%nat.
Proof.
  revert s. induction pat as [|a pat IH]; intros [|b s]; simpl;
    try done; try lia.
  intros [_ Hrest]%andb_true_iff. apply IH in Hrest. lia.
Qed.

Lemma startsWith_short pat s t :
  (length pat ≤ length s)%nat →
  startsWith pat (s ++ t) = startsWith pat s.
Proof.
  revert s. induction pat as [|a pat IH]; intros [|b s]; simpl;
    try done; try lia.
  intros Hlen. rewrite IH; [done|lia].
Qed.

Lemma startsWith_split pat s :
  startsWith pat s = true → s = pat ++ drop (length pat) s.
Proof.
  revert s. induction pat as [|a pat IH]; intros [|b s]; simpl; try done.
  intros [Hab Hrest]%andb_true_iff. apply Ascii.eqb_eq in Hab as ->.
  f_equal. by apply IH.
Qed.

Lemma startsWith_prefix pat t : startsWith pat (pat ++ t) = true.
Proof.
  induction pat as [|a pat IH]; simpl; [done|].
  by rewrite Ascii.eqb_refl.
Qed.

Lemma indexOf_length pat s i :
  indexOf pat s = Some i → (i + length pat ≤ length s)%nat.
Proof.
  revert i. induction s as [|b s IH]; intros i; simpl.
  - destruct (startsWith pat []) eqn:Hstart; [|done].
    intros [= <-]. apply startsWith_length in Hstart. simpl in *. lia.
  - destruct (startsWith pat (b :: s)) eqn:Hstart.
    + intros [= <-]. apply startsWith_length in Hstart. simpl in *. lia.
    + destruct (indexOf pat s) as [j|]; [|done]. simpl.
      intros [= <-]. specialize (IH j eq_refl). lia.
Qed.

(** The first occurrence stays the first one when text is added at the
    end. *)
Lemma indexOf_app pat s t i :
  indexOf pat s = Some i → indexOf pat (s ++ t) = Some i.
Proof.
  revert i. induction s as [|b s IH]; intros i; simpl.
  - destruct (startsWith pat []) eqn:Hstart; [|done].
    intros [= <-]. destruct pat; [|done]. by destruct t.
  - destruct (startsWith pat (b :: s)) eqn:Hstart.
    + intros [= <-].
      pose proof (startsWith_app pat (b :: s) t Hstart) as Happ.
      simpl in Happ. by rewrite Happ.
    + destruct (indexOf pat s) as [j|] eqn:Hj; [|done]. simpl.
      intros [= <-].
      pose proof (indexOf_length _ _ _ Hj) as Hlen.
      pose proof (startsWith_short pat (b :: s) t) as Hshort.
      simpl in Hshort. rewrite Hshort, Hstart by lia.
      by rewrite (IH j eq_refl).
Qed.

Lemma indexOf_split pat s i :
  indexOf pat s = Some i →
  s = take i s ++ pat ++ drop (i + length pat) s.
Proof.
  revert i. induction s as [|b s IH]; intros i; simpl.
  - destruct (startsWith pat []) eqn:Hstart; [|done].
    intros [= <-]. by destruct pat.
  - destruct (startsWith pat (b :: s)) eqn:Hstart.
    + intros [= <-]. simpl. by apply startsWith_split.
    + destruct (indexOf pat s) as [j|] eqn:Hj; [|done]. simpl.
      intros [= <-]. simpl. f_equal. by apply IH.
Qed.

Lemma getSubstitution_plain matched before after repl :
  "$"%char ∉ repl → getSubstitution matched before after repl = repl.
Proof.
  induction repl as [|c r IH]; [done|].
  intros Hnot. apply not_elem_of_cons in Hnot as [Hc Hr].
  simpl. destruct (Ascii.eqb c "$") eqn:Heq.
  - apply Ascii.eqb_eq in Heq. congruence.
  - by rewrite IH.
Qed.

Lemma str_replace_found s pat repl i :
  indexOf pat s = Some i →
  "$"%char ∉ repl →
  str_replace s pat repl = take i s ++ repl ++ drop (i + length pat) s.
Proof.
  intros Hi Hrepl. unfold str_replace.
  by rewrite Hi, getSubstitution_plain.
Qed.

Lemma str_replace_absent s pat repl :
  includes pat s = false → str_replace s pat repl = s.
Proof.
  unfold includes, str_replace. intros Hno.
  destruct (indexOf pat s) as [i|]; [|done].
  apply bool_decide_eq_false in Hno. by destruct Hno.
Qed.

(** A replacement inside [s] is not affected by what follows [s]. *)
Lemma str_replace_app s t pat repl i :
  indexOf pat s = Some i →
  "$"%char ∉ repl →
  str_replace (s ++ t) pat repl = str_replace s pat repl ++ t.
Proof.
  intros Hi Hrepl.
  pose proof (indexOf_length _ _ _ Hi) as Hlen.
  rewrite (str_replace_found (s ++ t) pat repl i),
    (str_replace_found s pat repl i); auto using indexOf_app.
  rewrite take_app_le, drop_app_le by lia.
  by rewrite <- !app_assoc.
Qed.

(** Replacing back: when the replacement text first occurs where it was
    put, the second replacement undoes the first. *)
Lemma str_replace_back s pat repl i :
  indexOf pat s = Some i →
  indexOf repl (str_replace s pat repl) = Some i →
  "$"%char ∉ repl → "$"%char ∉ pat →
  str_replace (str_replace s pat repl) repl pat = s.
Proof.
  intros Hi Hback Hrepl Hpat.
  pose proof (indexOf_length _ _ _ Hi) as Hlen.
  rewrite (str_replace_found _ repl pat i Hback Hpat).
  rewrite (str_replace_found s pat repl i Hi Hrepl).
  rewrite take_app_le by (rewrite length_take; lia).
  rewrite take_take, Nat.min_id.
  rewrite drop_app_ge by (rewrite length_take; lia).
  rewrite length_take, Nat.min_l by lia.
  replace (i + length repl - i) with (length repl) by lia.
  rewrite drop_app_length. symmetry. by apply indexOf_split.
Qed.

(** *** Separator-free runs *)

Local Abbreviation nosep := (Forall (λ c, is_sep c = false)).

Lemma is_sep_true c : is_sep c = true → c = "/"%char.
Proof. apply Ascii.eqb_eq. Qed.

Lemma nosep_notin s : "/"%char ∉ s → nosep s.
Proof.
  intros Hnot. apply Forall_forall. intros c Hc.
  destruct (is_sep c) eqn:Hsep; [|done].
  apply is_sep_true in Hsep as ->. done.
Qed.

Lemma nosep_forallb s :
  forallb (λ c, negb (is_sep c)) s = true ↔ nosep s.
Proof.
  induction s as [|c s IH]; simpl.
  - split; [constructor|done].
  - rewrite andb_true_iff, IH, Forall_cons, negb_true_iff. done.
Qed.

Lemma nosep_rev s : nosep s → nosep (rev s).
Proof.
  intros Hs. apply Forall_forall. intros c Hc.
  apply list_elem_of_In, in_rev, list_elem_of_In in Hc.
  by apply (proj1 (Forall_forall _ _) Hs).
Qed.

(** *** dirname *)

Lemma dirname_loop_run n rest matchedSlash :
  n ≠ [] → nosep n →
  dirname_loop (n ++ "/"%char :: rest) matchedSlash = Some (length rest).
Proof.
  revert matchedSlash. induction n as [|c n IH]; intros ms Hne Hn; [done|].
  apply Forall_cons in Hn as [Hc Hn]. simpl. rewrite Hc.
  destruct n as [|c' n]; [done|]. by apply IH.
Qed.

Lemma dirname_cons c0 tl e :
  dirname_loop (rev tl) true = Some e →
  is_sep c0 && (e =? 0)%nat = false →
  dirname (c0 :: tl) = c0 :: take e tl.
Proof. intros Hloop Hroot. unfold dirname. by rewrite Hloop, Hroot. Qed.

(** The directory of [d/b] is [d], for a directory [d] other than the root
    and a name [b]. *)
Lemma dirname_app c0 d0 b :
  (is_sep c0 = true → d0 ≠ []) →
  b ≠ [] → nosep b →
  dirname ((c0 :: d0) ++ "/"%char :: b) = c0 :: d0.
Proof.
  intros Hroot Hb Hsep.
  change ((c0 :: d0) ++ "/"%char :: b) with (c0 :: (d0 ++ "/"%char :: b)).
  rewrite (dirname_cons _ _ (length d0)).
  - by rewrite take_app_length.
  - rewrite rev_app_distr. simpl. rewrite <- app_assoc. simpl.
    rewrite dirname_loop_run, length_rev; [done| |by apply nosep_rev].
    intros Hrev. apply (f_equal length) in Hrev.
    rewrite length_rev in Hrev. by destruct b.
  - destruct (is_sep c0); [|done]. destruct d0; [by destruct Hroot|done].
Qed.

(** *** basename *)

(** Once the suffix is out of the way the loop runs to the separator. *)
Lemma basename_suffix_loop_rest n rest fnse e :
  nosep n →
  basename_suffix_loop (n ++ "/"%char :: rest) false [] (Some fnse) e
  = (length rest + 1, e, Some fnse).
Proof.
  induction 1 as [|c n Hc Hn IH]; simpl; [done|]. by rewrite Hc.
Qed.

(** The suffix is there: [end] is the index at which it starts. *)
Lemma basename_suffix_loop_match ext n rest fnse e :
  ext ≠ [] → nosep ext → nosep n →
  basename_suffix_loop (ext ++ n ++ "/"%char :: rest) false ext (Some fnse) e
  = (length rest + 1, Some (length (n ++ "/"%char :: rest)), Some fnse).
Proof.
  intros Hne Hext Hn. revert e.
  induction Hext as [|x ext Hx Hext IH]; intros e; [done|].
  simpl. rewrite Hx, Ascii.eqb_refl.
  destruct ext as [|x' ext].
  - simpl. by rewrite basename_suffix_loop_rest.
  - by rewrite IH.
Qed.

Lemma basename_suffix_loop_match_init ext n rest :
  ext ≠ [] → nosep ext → nosep n →
  basename_suffix_loop (ext ++ n ++ "/"%char :: rest) true ext None None
  = (length rest + 1, Some (length (n ++ "/"%char :: rest)),
     Some (length (ext ++ n ++ "/"%char :: rest))).
Proof.
  intros Hne Hext Hn. destruct Hext as [|x ext Hx Hext]; [done|].
  simpl. rewrite Hx, Ascii.eqb_refl.
  destruct ext as [|x' ext].
  - simpl. rewrite basename_suffix_loop_rest by done.
    by rewrite !Nat.add_1_r.
  - rewrite basename_suffix_loop_match by done.
    by rewrite !Nat.add_1_r.
Qed.

(** The suffix is not there: [end] stays unset or falls back to the end of
    the name. *)
Lemma basename_suffix_loop_mismatch n ext rest fnse :
  nosep n →
  (∀ n', n ≠ ext ++ n') →
  ∃ e,
    basename_suffix_loop (n ++ "/"%char :: rest) false ext (Some fnse) None
    = (length rest + 1, e, Some fnse)
    ∧ (e = None ∨ e = Some fnse).
Proof.
  intros Hn. revert ext.
  induction Hn as [|c n Hc Hn IH]; intros ext Hnot.
  - simpl. eauto.
  - destruct ext as [|x ext]; [by destruct (Hnot (c :: n))|].
    simpl. rewrite Hc. destruct (Ascii.eqb c x) eqn:Hcx.
    + apply Ascii.eqb_eq in Hcx as ->.
      destruct ext as [|x' ext]; [by destruct (Hnot n)|].
      apply IH. intros n' ->. by destruct (Hnot n').
    + rewrite basename_suffix_loop_rest by done. eauto.
Qed.

Lemma basename_suffix_loop_mismatch_init n ext rest :
  n ≠ [] → ext ≠ [] → nosep n →
  (∀ n', n ≠ ext ++ n') →
  ∃ e,
    basename_suffix_loop (n ++ "/"%char :: rest) true ext None None
    = (length rest + 1, e, Some (length (n ++ "/"%char :: rest)))
    ∧ (e = None ∨ e = Some (length (n ++ "/"%char :: rest))).
Proof.
  intros Hne Hext Hn Hnot.
  destruct Hn as [|c n Hc Hn]; [done|].
  destruct ext as [|x ext]; [done|].
  simpl. rewrite Hc, Nat.add_1_r. destruct (Ascii.eqb c x) eqn:Hcx.
  - apply Ascii.eqb_eq in Hcx as ->.
    destruct ext as [|x' ext]; [by destruct (Hnot n)|].
    apply basename_suffix_loop_mismatch; [done|].
    intros n' ->. by destruct (Hnot n').
  - rewrite basename_suffix_loop_rest by done. eauto.
Qed.

Lemma basename_plain_loop_rest n rest e :
  nosep n →
  basename_plain_loop (n ++ "/"%char :: rest) false (Some e)
  = (length rest + 1, Some e).
Proof.
  induction 1 as [|c n Hc Hn IH]; simpl; [done|]. by rewrite Hc.
Qed.

Lemma basename_plain_loop_init n rest :
  n ≠ [] → nosep n →
  basename_plain_loop (n ++ "/"%char :: rest) true None
  = (length rest + 1, Some (length (n ++ "/"%char :: rest))).
Proof.
  intros Hne Hn. destruct Hn as [|c n Hc Hn]; [done|].
  simpl. rewrite Hc, Nat.add_1_r. by apply basename_plain_loop_rest.
Qed.

Lemma rev_nonempty s : s ≠ [] → rev s ≠ [].
Proof.
  intros Hs Hrev. apply (f_equal length) in Hrev.
  rewrite length_rev in Hrev. by destruct s.
Qed.

Lemma rev_path d name :
  rev (d ++ "/"%char :: name) = rev name ++ "/"%char :: rev d.
Proof. rewrite rev_app_distr. simpl. by rewrite <- app_assoc. Qed.

(** The base name of [d/stem+suffix] without the suffix is [stem]. *)
Lemma basename_strips d stem suffix :
  stem ≠ [] → nosep stem → suffix ≠ [] → nosep suffix →
  basename (d ++ "/"%char :: stem ++ suffix) suffix = stem.
Proof.
  intros Hstem Hsep Hsuffix Hsepx. unfold basename.
  rewrite (bool_decide_eq_true_2 _ Hsuffix). simpl.
  assert ((length suffix <=? length (d ++ "/"%char :: stem ++ suffix))%nat
          = true) as ->.
  { apply Nat.leb_le. rewrite length_app. simpl. rewrite length_app. lia. }
  rewrite bool_decide_eq_false_2.
  2:{ intros Heq. apply (f_equal length) in Heq.
      rewrite length_app in Heq. simpl in Heq. rewrite length_app in Heq.
      lia. }
  rewrite rev_path, rev_app_distr, <- app_assoc.
  rewrite basename_suffix_loop_match_init;
    [|by apply rev_nonempty|by apply nosep_rev|by apply nosep_rev].
  rewrite bool_decide_eq_false_2.
  2:{ intros [= Heq]. rewrite length_app in Heq. simpl in Heq.
      rewrite !length_rev in Heq. destruct stem; [done|]. simpl in Heq. lia. }
  unfold slice. rewrite length_app. simpl. rewrite !length_rev.
  replace (length stem + S (length d) - (length d + 1)) with (length stem)
    by lia.
  change (d ++ "/"%char :: stem ++ suffix)
    with (d ++ ["/"%char] ++ stem ++ suffix).
  rewrite (assoc_L (++) d), drop_app_length'
    by (rewrite length_app; simpl; lia).
  by rewrite take_app_length.
Qed.

Lemma slice_name d name :
  slice (d ++ "/"%char :: name) (length (rev d) + 1)
    (Some (length (rev name ++ "/"%char :: rev d)))
  = name.
Proof.
  unfold slice. rewrite length_app. simpl. rewrite !length_rev.
  change (d ++ "/"%char :: name) with (d ++ ["/"%char] ++ name).
  rewrite (assoc_L (++) d), drop_app_length'
    by (rewrite length_app; simpl; lia).
  apply take_ge. lia.
Qed.

(** The base name of [d/name] is [name] as a whole when [name] does not end
    with the suffix. *)
Lemma basename_keeps d name suffix :
  name ≠ [] → nosep name →
  (∀ stem, name ≠ stem ++ suffix) →
  suffix ≠ d ++ "/"%char :: name →
  basename (d ++ "/"%char :: name) suffix = name.
Proof.
  intros Hname Hsep Hnot Hne. unfold basename.
  assert (∀ n', rev name ≠ rev suffix ++ n') as Hnot'.
  { intros n' Hrev. apply (Hnot (rev n')).
    by rewrite <- (rev_involutive name), Hrev, rev_app_distr, rev_involutive. }
  destruct (bool_decide (suffix ≠ []) && _) eqn:Hcond.
  - apply andb_true_iff in Hcond as [Hsuffix%bool_decide_eq_true _].
    rewrite bool_decide_eq_false_2 by done.
    rewrite rev_path.
    destruct (basename_suffix_loop_mismatch_init (rev name) (rev suffix)
                (rev d)) as (e & -> & He);
      [by apply rev_nonempty|by apply rev_nonempty|by apply nosep_rev|done|].
    assert (length (rev d) + 1 < length (rev name ++ "/"%char :: rev d))
      as Hlt.
    { rewrite length_app. simpl. rewrite !length_rev.
      destruct name; [done|]. simpl. lia. }
    assert (length (d ++ "/"%char :: name)
            = length (rev name ++ "/"%char :: rev d)) as Hlen.
    { rewrite !length_app. simpl. rewrite !length_rev. lia. }
    destruct He as [-> | ->].
    + rewrite bool_decide_eq_false_2 by done.
      rewrite Hlen. apply slice_name.
    + rewrite bool_decide_eq_false_2 by (intros [= Heq]; lia).
      apply slice_name.
  - rewrite rev_path, basename_plain_loop_init;
      [|by apply rev_nonempty|by apply nosep_rev].
    apply slice_name.
Qed.

(** *** normalize and join *)

Lemma split_sep_nonempty s : split_sep s ≠ [].
Proof.
  destruct s as [|c s]; simpl; [done|].
  destruct (is_sep c); [done|]. by destruct (split_sep s).
Qed.

Lemma split_sep_app s t :
  split_sep (s ++ "/"%char :: t) = split_sep s ++ split_sep t.
Proof.
  induction s as [|c s IH]; simpl; [done|].
  rewrite IH. destruct (is_sep c); [done|].
  pose proof (split_sep_nonempty s). by destruct (split_sep s).
Qed.

Lemma split_sep_nosep s : nosep s → split_sep s = [s].
Proof. induction 1 as [|c s Hc Hs IH]; simpl; [done|]. by rewrite Hc, IH. Qed.

Lemma join_sep_cons seg segs :
  segs ≠ [] → join_sep (seg :: segs) = seg ++ "/"%char :: join_sep segs.
Proof. by destruct segs. Qed.

Lemma join_sep_split s : join_sep (split_sep s) = s.
Proof.
  induction s as [|c s IH]; simpl; [done|].
  pose proof (split_sep_nonempty s) as Hne.
  destruct (is_sep c) eqn:Hc.
  - apply is_sep_true in Hc as ->.
    rewrite join_sep_cons by done. simpl. by rewrite IH.
  - destruct (split_sep s) as [|seg segs]; [done|].
    destruct segs as [|seg' segs]; simpl in *; by rewrite <- IH.
Qed.

Lemma join_sep_snoc segs seg :
  segs ≠ [] → join_sep (segs ++ [seg]) = join_sep segs ++ "/"%char :: seg.
Proof.
  induction segs as [|x segs IH]; [done|]. intros _.
  destruct segs as [|y segs]; [done|].
  change ((x :: y :: segs) ++ [seg]) with (x :: ((y :: segs) ++ [seg])).
  rewrite !join_sep_cons, IH by done. by rewrite <- app_assoc.
Qed.

Lemma is_clean_segment_spec seg :
  is_clean_segment seg = true ↔
  seg ≠ [] ∧ seg ≠ chars "." ∧ seg ≠ chars ".." ∧ nosep seg.
Proof.
  unfold is_clean_segment.
  rewrite !andb_true_iff, !negb_true_iff, !bool_decide_eq_false, nosep_forallb.
  destruct seg; simpl; intuition congruence.
Qed.

Lemma normalize_step_clean allowAboveRoot res seg :
  is_clean_segment seg = true →
  normalize_step allowAboveRoot res seg = seg :: res.
Proof.
  intros (Hne & Hdot & Hdots & _)%is_clean_segment_spec.
  unfold normalize_step.
  by rewrite !bool_decide_eq_false_2.
Qed.

Lemma foldl_normalize_step_clean allowAboveRoot res segs :
  forallb is_clean_segment segs = true →
  foldl (normalize_step allowAboveRoot) res segs = rev segs ++ res.
Proof.
  revert res. induction segs as [|seg segs IH]; intros res; simpl; [done|].
  intros [Hseg Hsegs]%andb_true_iff.
  rewrite normalize_step_clean, IH by done. by rewrite <- app_assoc.
Qed.

Lemma normalizeString_clean s allowAboveRoot :
  forallb is_clean_segment (split_sep s) = true →
  normalizeString s allowAboveRoot = s
  ∧ normalizeString ("/"%char :: s) allowAboveRoot = s.
Proof.
  intros Hclean. unfold normalizeString.
  change (split_sep ("/"%char :: s)) with ([] :: split_sep s).
  change (foldl (normalize_step allowAboveRoot) [] ([] :: split_sep s))
    with (foldl (normalize_step allowAboveRoot) [] (split_sep s)).
  rewrite foldl_normalize_step_clean by done.
  by rewrite app_nil_r, rev_involutive, join_sep_split.
Qed.

(** A path of clean segments is not empty and does not start or end with a
    separator. *)
Lemma clean_segments_shape s :
  forallb is_clean_segment (split_sep s) = true →
  (∃ c s', s = c :: s' ∧ is_sep c = false)
  ∧ (∀ c, last s = Some c → is_sep c = false).
Proof.
  intros Hclean. split.
  - destruct s as [|c s]; [done|]. exists c, s. split; [done|].
    simpl in Hclean. destruct (is_sep c); [done|done].
  - intros c Hlast. destruct (is_sep c) eqn:Hc; [|done].
    apply is_sep_true in Hc as ->.
    apply last_Some in Hlast as [s' ->].
    change (s' ++ ["/"%char]) with (s' ++ "/"%char :: []) in Hclean.
    rewrite split_sep_app, forallb_app in Hclean.
    by apply andb_true_iff in Hclean as [_ Hclean].
Qed.

(** What [is_clean_path] says, case by case. *)
Lemma is_clean_path_cases path :
  is_clean_path path = true →
  (∃ c s, path = c :: s ∧ is_sep c = false
          ∧ forallb is_clean_segment (split_sep path) = true)
  ∨ (∃ s, path = "/"%char :: s
          ∧ forallb is_clean_segment (split_sep s) = true).
Proof.
  unfold is_clean_path. destruct path as [|c s]; [done|].
  destruct (is_sep c) eqn:Hc; intros Hclean.
  - right. apply is_sep_true in Hc as ->. by exists s.
  - left. by exists c, s.
Qed.

Lemma normalize_clean path :
  is_clean_path path = true → normalize path = path.
Proof.
  intros [(c & s & -> & Hc & Hclean)|(s & -> & Hclean)]%is_clean_path_cases.
  - destruct (clean_segments_shape _ Hclean) as [_ Hlast].
    destruct (normalizeString_clean _ true Hclean) as [Hnorm _].
    unfold normalize. rewrite Hc. simpl negb. rewrite Hnorm.
    destruct (last (c :: s)) as [c'|] eqn:Hc'; [|done].
    by rewrite (Hlast c' eq_refl).
  - destruct (clean_segments_shape _ Hclean) as [(c & s' & -> & Hc) Hlast].
    destruct (normalizeString_clean _ false Hclean) as [_ Hnorm].
    unfold normalize. change (is_sep "/") with true. simpl negb.
    rewrite Hnorm.
    change (last ("/"%char :: c :: s')) with (last (c :: s')).
    destruct (last (c :: s')) as [c'|] eqn:Hc'; [|done].
    by rewrite (Hlast c' eq_refl).
Qed.

Lemma is_clean_path_relative c s :
  is_sep c = false →
  is_clean_path (c :: s) = forallb is_clean_segment (split_sep (c :: s)).
Proof. intros Hc. unfold is_clean_path. by rewrite Hc. Qed.

Lemma is_clean_path_absolute s :
  is_clean_path ("/"%char :: s) = forallb is_clean_segment (split_sep s).
Proof. reflexivity. Qed.

Lemma is_clean_path_snoc path seg :
  is_clean_path path = true →
  is_clean_segment seg = true →
  is_clean_path (path ++ "/"%char :: seg) = true.
Proof.
  intros Hpath Hseg.
  pose proof (proj1 (is_clean_segment_spec seg) Hseg) as (_ & _ & _ & Hsep).
  apply is_clean_path_cases in Hpath
    as [(c & s & -> & Hc & Hclean)|(s & -> & Hclean)].
  - change ((c :: s) ++ "/"%char :: seg) with (c :: (s ++ "/"%char :: seg)).
    rewrite is_clean_path_relative by done.
    change (c :: (s ++ "/"%char :: seg)) with ((c :: s) ++ "/"%char :: seg).
    rewrite split_sep_app, forallb_app, Hclean, split_sep_nosep by done.
    simpl. by rewrite Hseg.
  - change (("/"%char :: s) ++ "/"%char :: seg)
      with ("/"%char :: (s ++ "/"%char :: seg)).
    rewrite is_clean_path_absolute.
    rewrite split_sep_app, forallb_app, Hclean, split_sep_nosep by done.
    simpl. by rewrite Hseg.
Qed.

(** A clean directory is kept by [dirname] under any name. *)
Lemma dirname_clean d b :
  is_clean_path d = true → b ≠ [] → nosep b →
  dirname (d ++ "/"%char :: b) = d.
Proof.
  intros [(c & s & -> & Hc & Hclean)|(s & -> & Hclean)]%is_clean_path_cases
    Hb Hsep.
  - apply dirname_app; [by rewrite Hc|done|done].
  - destruct (clean_segments_shape _ Hclean) as [(c & s' & -> & _) _].
    by apply dirname_app.
Qed.

Lemma is_clean_path_nonempty d : is_clean_path d = true → d ≠ [].
Proof. by destruct d. Qed.

(** Joining a clean directory and a clean name adds one separator. *)
Lemma join_clean d seg :
  is_clean_path d = true → is_clean_segment seg = true →
  join [d; seg] = d ++ "/"%char :: seg.
Proof.
  intros Hd Hseg.
  pose proof (is_clean_path_nonempty d Hd).
  pose proof (proj1 (is_clean_segment_spec seg) Hseg) as (Hne & _).
  unfold join. destruct d as [|c d]; [done|]. destruct seg as [|c' seg]; [done|].
  simpl List.filter. cbv iota.
  change (join_sep [c :: d; c' :: seg]) with ((c :: d) ++ "/"%char :: c' :: seg).
  apply normalize_clean. by apply is_clean_path_snoc.
Qed.

Lemma join_clean3 d seg1 seg2 :
  is_clean_path d = true →
  is_clean_segment seg1 = true → is_clean_segment seg2 = true →
  join [d; seg1; seg2] = (d ++ "/"%char :: seg1) ++ "/"%char :: seg2.
Proof.
  intros Hd Hseg1 Hseg2.
  pose proof (is_clean_path_nonempty d Hd).
  pose proof (proj1 (is_clean_segment_spec seg1) Hseg1) as (Hne1 & _).
  pose proof (proj1 (is_clean_segment_spec seg2) Hseg2) as (Hne2 & _).
  unfold join. destruct d as [|c d]; [done|].
  destruct seg1 as [|c1 seg1]; [done|]. destruct seg2 as [|c2 seg2]; [done|].
  simpl List.filter. cbv iota.
  change (join_sep [c :: d; c1 :: seg1; c2 :: seg2])
    with ((c :: d) ++ "/"%char :: (c1 :: seg1) ++ "/"%char :: c2 :: seg2).
  rewrite app_comm_cons, (assoc_L (++) (c :: d)).
  apply normalize_clean. by repeat apply is_clean_path_snoc.
Qed.

(** A name followed by an extension of three characters or more is a
    clean segment. *)
Lemma is_clean_segment_name stem tail :
  stem ≠ [] → nosep stem → nosep tail → (3 ≤ length tail)%nat →
  is_clean_segment (stem ++ tail) = true.
Proof.
  intros Hstem Hsep Htail Hlen. apply is_clean_segment_spec.
  assert (4 ≤ length (stem ++ tail))%nat as Hlong.
  { rewrite length_app. destruct stem; [done|]. simpl. lia. }
  split_and!.
  - intros Heq. rewrite Heq in Hlong. simpl in Hlong. lia.
  - intros Heq. rewrite Heq in Hlong. simpl in Hlong. lia.
  - intros Heq. rewrite Heq in Hlong. simpl in Hlong. lia.
  - by apply Forall_app.
Qed.

Lemma is_clean_segment_snapshots :
  is_clean_segment (chars "__snapshots__") = true.
Proof. reflexivity. Qed.

(** *** The resolver *)

(** C1: the two closures are written as inverses of each other (the same
    [replace] with the roots exchanged, and line 345 gives jest a path to
    check that they are), but [replace] with a string pattern rewrites the
    first occurrence only.  Here is a compiled test of a project whose own
    path holds the source-test root: the path contains [lib/test] and its
    snapshot path is computed, but the way back replaces the first
    [src/test] of the directory, which is not the one that stands for
    [lib/test], and the test path that comes back is another file. *)
Lemma round_trip_fails_when_srctest_occurs_earlier :
  let libtest := chars "lib/test" in
  let srctest := chars "src/test" in
  let p := chars "/w/src/test/lib/test/a.test.js" in
  includes libtest p = true
  ∧ resolveSnapshotPath libtest srctest p (chars ".snap")
    = chars "/w/src/test/src/test/__snapshots__/a.test.ts.snap"
  ∧ resolveTestPath libtest srctest
      (resolveSnapshotPath libtest srctest p (chars ".snap")) (chars ".snap")
    = chars "/w/lib/test/src/test/a.test.js"
  ∧ resolveTestPath libtest srctest
      (resolveSnapshotPath libtest srctest p (chars ".snap")) (chars ".snap")
    ≠ p.
Proof. split_and!; [by vm_compute..|]. vm_compute. discriminate. Qed.

(** The same for a project in a directory whose name starts like the
    source-test root. *)
Example round_trip_fails_below_src_test_project :
  let libtest := chars "lib/test" in
  let srctest := chars "src/test" in
  let p := chars "/home/u/src/test-project/lib/test/a.test.js" in
  resolveSnapshotPath libtest srctest p (chars ".snap")
  = chars "/home/u/src/test-project/src/test/__snapshots__/a.test.ts.snap"
  ∧ resolveTestPath libtest srctest
      (resolveSnapshotPath libtest srctest p (chars ".snap")) (chars ".snap")
    = chars "/home/u/lib/test-project/src/test/a.test.js".
Proof. split; by vm_compute. Qed.

(** Other paths that contain the compiled-test root and do not come back:
    a test that jest matches with the [.jsx] extension (the pattern of line
    314 ends in [.js?(x)], and [basename] strips [.js] only), a path that is
    not normalized, and a path that holds the root in its base name only. *)
Example round_trip_fails_for_jsx :
  resolveTestPath (chars "lib/test") (chars "src/test")
    (resolveSnapshotPath (chars "lib/test") (chars "src/test")
       (chars "lib/test/a.test.jsx") (chars ".snap")) (chars ".snap")
  = chars "lib/test/a.test.jsx.js".
Proof. by vm_compute. Qed.

Example round_trip_fails_when_not_normalized :
  resolveTestPath (chars "lib/test") (chars "src/test")
    (resolveSnapshotPath (chars "lib/test") (chars "src/test")
       (chars "./lib/test/a.test.js") (chars ".snap")) (chars ".snap")
  = chars "lib/test/a.test.js".
Proof. by vm_compute. Qed.

Example round_trip_fails_for_root_in_base_name :
  resolveTestPath (chars "lib/test") (chars "src/test")
    (resolveSnapshotPath (chars "lib/test") (chars "src/test")
       (chars "w/lib/test.js") (chars ".snap")) (chars ".snap")
  = chars "w/src/test.js".
Proof. by vm_compute. Qed.

(** X17: where the round trip does hold.  Let [p] be [d/stem.js] where [d]
    is a normalized directory that contains [libtest] and [stem] is a name;
    let [libtest] and [srctest] hold no [$] and [ext] no separator; let the
    directory [d'] got from [d] by replacing the first [libtest] by
    [srctest] be normalized too, with the first [srctest] of [d'] at the
    place of that [libtest].  Then the snapshot path of [p] is
    [d'/__snapshots__/stem.ts] followed by [ext], and the test path of that
    snapshot path is [p]. *)
Theorem snapshot_path_round_trip :
  ∀ libtest srctest ext d stem i,
    "$"%char ∉ libtest → "$"%char ∉ srctest →
    "/"%char ∉ ext →
    stem ≠ [] → "/"%char ∉ stem →
    is_clean_path d = true →
    is_clean_path (str_replace d libtest srctest) = true →
    indexOf libtest d = Some i →
    indexOf srctest (str_replace d libtest srctest) = Some i →
    let p := d ++ chars "/" ++ stem ++ chars ".js" in
    resolveSnapshotPath libtest srctest p ext
    = str_replace d libtest srctest
        ++ chars "/__snapshots__/" ++ stem ++ chars ".ts" ++ ext
    ∧ resolveTestPath libtest srctest
        (resolveSnapshotPath libtest srctest p ext) ext
      = p.
Proof.
  intros libtest srctest ext d stem i Hlib Hsrc Hext%nosep_notin Hstem
    Hsep%nosep_notin Hd Hd' Hi Hback p.
  set (d' := str_replace d libtest srctest) in *.
  assert (nosep (chars ".js")) as Hjs by (by repeat constructor).
  assert (nosep (chars ".ts" ++ ext)) as Hts.
  { apply Forall_app. split; [by repeat constructor|done]. }
  assert (is_clean_segment (stem ++ chars ".ts" ++ ext) = true) as Hname.
  { apply is_clean_segment_name; [done..|]. rewrite length_app. simpl. lia. }
  assert (is_clean_segment (stem ++ chars ".js") = true) as Hname'.
  { by apply is_clean_segment_name; [..|simpl; lia]. }
  assert (is_clean_path (d' ++ "/"%char :: chars "__snapshots__") = true)
    as Hsnaps.
  { apply is_clean_path_snoc; [done|apply is_clean_segment_snapshots]. }
  assert (resolveSnapshotPath libtest srctest p ext
          = (d' ++ "/"%char :: chars "__snapshots__")
              ++ "/"%char :: stem ++ chars ".ts" ++ ext) as Hsnap.
  { unfold resolveSnapshotPath, p.
    change (d ++ chars "/" ++ stem ++ chars ".js")
      with (d ++ "/"%char :: stem ++ chars ".js").
    rewrite (str_replace_app d _ libtest srctest i) by done. fold d'.
    rewrite dirname_clean;
      [|done|by destruct stem|by apply Forall_app].
    rewrite basename_strips by done.
    by apply join_clean3; [|apply is_clean_segment_snapshots|]. }
  split.
  - rewrite Hsnap. by rewrite <- app_assoc.
  - rewrite Hsnap. unfold resolveTestPath.
    rewrite basename_strips by done.
    rewrite dirname_clean;
      [|done|by destruct stem|by apply Forall_app].
    rewrite dirname_clean; [|done|done|by repeat constructor].
    unfold d'. rewrite (str_replace_back d libtest srctest i) by done.
    by apply join_clean.
Qed.

(** The example of the specification: roots [lib/test] and [test], the
    compiled test [lib/test/foo/bar.test.js] and the extension [.snap]. *)
Lemma snapshot_path_round_trip_example :
  let libtest := chars "lib/test" in
  let srctest := chars "test" in
  let p := chars "lib/test/foo/bar.test.js" in
  resolveSnapshotPath libtest srctest p (chars ".snap")
  = chars "test/foo/__snapshots__/bar.test.ts.snap"
  ∧ resolveTestPath libtest srctest
      (resolveSnapshotPath libtest srctest p (chars ".snap")) (chars ".snap")
    = p.
Proof.
  intros libtest srctest p.
  apply (snapshot_path_round_trip libtest srctest (chars ".snap")
           (chars "lib/test/foo") (chars "bar.test") 0);
    try reflexivity; try discriminate; compute_done.
Defined.

(** The way jest calls the resolver: an absolute path, and the roots of a
    project with [srcdir = "src"], [testdir = "src/test"] and
    [libdir = "lib"]. *)
Example snapshot_path_round_trip_absolute :
  let libtest := chars "lib/test" in
  let srctest := chars "src/test" in
  let p := chars "/home/dev/project/lib/test/unit/hello.test.js" in
  resolveSnapshotPath libtest srctest p (chars ".snap")
  = chars "/home/dev/project/src/test/unit/__snapshots__/hello.test.ts.snap"
  ∧ resolveTestPath libtest srctest
      (resolveSnapshotPath libtest srctest p (chars ".snap")) (chars ".snap")
    = p.
Proof. by vm_compute. Qed.

(** C2, against the claim: without the compiled-test root in its input
    [resolveSnapshotPath] returns a path, and without the [.ts] suffix in its
    input [resolveTestPath] returns a path; neither call throws. *)
Lemma resolvers_return_on_malformed_paths :
  includes (chars "lib/test") (chars "other/dir/x.js") = false
  ∧ call_resolveSnapshotPath (chars "lib/test") (chars "test")
      (chars "other/dir/x.js") (chars ".snap")
    = Returns (chars "other/dir/__snapshots__/x.ts.snap")
  ∧ call_resolveSnapshotPath (chars "lib/test") (chars "test")
      (chars "other/dir/x.js") (chars ".snap")
    ≠ Throws MalformedPathError
  ∧ call_resolveTestPath (chars "lib/test") (chars "test")
      (chars "test/__snapshots__/x.txt") (chars ".snap")
    = Returns (chars "lib/test/x.txt.js")
  ∧ call_resolveTestPath (chars "lib/test") (chars "test")
      (chars "test/__snapshots__/x.txt") (chars ".snap")
    ≠ Throws MalformedPathError.
Proof. split_and!; by vm_compute. Qed.

(** C2, amended: both closures return a path on every input.  When the
    compiled-test root is not a substring of its input, [resolveSnapshotPath]
    replaces nothing and returns the snapshot path next to the input as it
    is; when the base name of its input does not end with [".ts" + ext],
    [resolveTestPath] keeps the whole base name and appends [".js"]. *)
Theorem resolvers_always_return :
  ∀ libtest srctest path ext,
    call_resolveSnapshotPath libtest srctest path ext
    = Returns (resolveSnapshotPath libtest srctest path ext)
    ∧ call_resolveTestPath libtest srctest path ext
      = Returns (resolveTestPath libtest srctest path ext)
    ∧ (includes libtest path = false →
       resolveSnapshotPath libtest srctest path ext
       = join [ dirname path; chars "__snapshots__";
                basename path (chars ".js") ++ chars ".ts" ++ ext ])
    ∧ (∀ dir name,
         path = dir ++ chars "/" ++ name →
         name ≠ [] → "/"%char ∉ name → "/"%char ∉ ext →
         (∀ stem, name ≠ stem ++ chars ".ts" ++ ext) →
         resolveTestPath libtest srctest path ext
         = join [ str_replace (dirname (dirname path)) srctest libtest;
                  name ++ chars ".js" ]).
Proof.
  intros libtest srctest path ext. split_and!; [done|done| |].
  - intros Habsent. unfold resolveSnapshotPath.
    by rewrite str_replace_absent.
  - intros dir name -> Hname Hsep%nosep_notin Hext Hnot.
    unfold resolveTestPath.
    change (dir ++ chars "/" ++ name) with (dir ++ "/"%char :: name).
    rewrite basename_keeps; [done|done|done|done|].
    intros Heq. apply Hext. rewrite list_elem_of_In.
    assert (In "/"%char (chars ".ts" ++ ext)) as Hin.
    { rewrite Heq. apply in_or_app. right. by left. }
    apply in_app_or in Hin as [Hin|Hin]; [|done].
    simpl in Hin. by intuition discriminate.
Qed.

Lemma resolvers_always_return_example :
  includes (chars "lib/test") (chars "other/dir/x.js") = false
  ∧ resolveSnapshotPath (chars "lib/test") (chars "test")
      (chars "other/dir/x.js") (chars ".snap")
    = chars "other/dir/__snapshots__/x.ts.snap"
  ∧ resolveTestPath (chars "lib/test") (chars "test")
      (chars "test/__snapshots__/x.txt") (chars ".snap")
    = chars "lib/test/x.txt.js".
Proof.
  destruct (resolvers_always_return (chars "lib/test") (chars "test")
              (chars "other/dir/x.js") (chars ".snap"))
    as (_ & _ & Hsnap & _).
  destruct (resolvers_always_return (chars "lib/test") (chars "test")
              (chars "test/__snapshots__/x.txt") (chars ".snap"))
    as (_ & _ & _ & Htest).
  split; [reflexivity|]. split.
  - rewrite Hsnap; reflexivity.
  - rewrite (Htest (chars "test/__snapshots__") (chars "x.txt"));
      try reflexivity; try discriminate; try compute_done.
    intros stem Heq. apply (f_equal (λ s, rev s)) in Heq.
    rewrite rev_app_distr in Heq. discriminate.
Defined.

End PathRemapperProperties.

(** * Further properties *)

(** ** ConfigMerger: the last fragment that defines a property wins *)

Section ConfigMergerLastWins.

Import ConfigMerger.

Lemma omap_singleton {A B} (f : A → option B) (x : A) :
  omap f [x] = match f x with Some y => [y] | None => [] end.
Proof. simpl. by destruct (f x). Qed.

(** A property that each step spreads is, after the fold, the one of the last
    fragment that has it, or else the one of the accumulator. *)
Lemma foldl_merge_step_last {A} (proj : TypescriptConfigOptions → option A) :
  (∀ a f, proj (merge_step a f) = spread_prop (proj a) (proj f)) →
  ∀ acc fs,
    proj (foldl merge_step acc fs)
    = spread_prop (proj acc) (last (omap proj fs)).
Proof.
  intros Hstep acc fs. induction fs as [|f fs IH] using rev_ind; [done|].
  rewrite foldl_snoc, Hstep, IH, omap_app, omap_singleton.
  destruct (proj f) as [x|].
  - by rewrite last_snoc.
  - by rewrite app_nil_r.
Qed.

Lemma omap_defined_nil {A} (proj : TypescriptConfigOptions → option A)
    (options : list (option TypescriptConfigOptions)) :
  (∀ g, Some g ∈ options → proj g = None) →
  omap proj (definedOptions options) = [].
Proof.
  unfold definedOptions.
  induction options as [|[g|] options IH]; intros Hnone; simpl; [done| |].
  - rewrite (Hnone g) by apply list_elem_of_here.
    apply IH. intros h Hh. apply Hnone. by apply list_elem_of_further.
  - apply IH. intros h Hh. apply Hnone. by apply list_elem_of_further.
Qed.

(** X1: the [fileName] property of the merge is the one of the last defined
    fragment that has the property, with the value it has there, be it
    [undefined]: a later [{ fileName: undefined }] erases the name that an
    earlier fragment gave, while a later fragment without the property keeps
    it.  The merge has no [fileName] when no defined fragment has the
    property. *)
Theorem merge_fileName_last_wins :
  ∀ options,
    (∀ before f after,
       options = before ++ Some f :: after →
       is_Some (fileName f) →
       (∀ g, Some g ∈ after → fileName g = None) →
       fileName (mergeTsconfigOptions options) = fileName f)
    ∧ ((∀ g, Some g ∈ options → fileName g = None) →
       fileName (mergeTsconfigOptions options) = None)
    ∧ (∀ (name : string) incA excA coA incB excB coB incC excC coC,
         let A := mkOptions (Some (Some name)) incA excA coA in
         let B := mkOptions (Some None) incB excB coB in
         let C := mkOptions None incC excC coC in
         read_fileName (mergeTsconfigOptions [Some A; Some B]) = None
         ∧ read_fileName (mergeTsconfigOptions [Some B; Some A]) = Some name
         ∧ read_fileName (mergeTsconfigOptions [Some A; Some C]) = Some name
         ∧ read_fileName (mergeTsconfigOptions [Some A; None]) = Some name).
Proof.
  intros options.
  assert (fileName (mergeTsconfigOptions options)
          = last (omap fileName (definedOptions options))) as Hlast.
  { unfold mergeTsconfigOptions.
    rewrite (foldl_merge_step_last fileName) by done.
    apply spread_prop_None_l. }
  split_and!.
  - intros before f after -> [v Hv] Hafter. rewrite Hlast.
    rewrite definedOptions_app, omap_app.
    change (definedOptions (Some f :: after))
      with (f :: definedOptions after).
    change (omap fileName (f :: definedOptions after))
      with (match fileName f with
            | Some value => value :: omap fileName (definedOptions after)
            | None => omap fileName (definedOptions after)
            end).
    rewrite Hv, (omap_defined_nil fileName after) by done.
    by rewrite last_snoc.
  - intros Hnone. rewrite Hlast. by rewrite omap_defined_nil.
  - done.
Qed.

(** The fragments [{ fileName: "a.json" }] and [{ fileName: undefined }], in
    this order. *)
Lemma merge_fileName_last_wins_example :
  let a := mkOptions (Some (Some "a.json")) None None ∅ in
  let b := mkOptions (Some None) None None ∅ in
  fileName (mergeTsconfigOptions [Some a; Some b; None]) = Some None
  ∧ read_fileName (mergeTsconfigOptions [Some a; Some b; None]) = None.
Proof.
  intros a b.
  destruct (merge_fileName_last_wins [Some a; Some b; None]) as (Hlast & _).
  rewrite (Hlast [Some a] b [None]); [done|done|by eexists|].
  intros g Hg. apply list_elem_of_singleton in Hg. discriminate.
Defined.

(** X2: for a list of any length, the value of a compiler option in the
    merge is the value it has in the last defined fragment that sets it, and
    an option is set in the merge exactly when some defined fragment sets
    it. *)
Theorem merge_compilerOptions_last_setter :
  ∀ options (k : string),
    compilerOptions (mergeTsconfigOptions options) !! k
    = last (omap (λ f, compilerOptions f !! k) (definedOptions options))
    ∧ (is_Some (compilerOptions (mergeTsconfigOptions options) !! k)
       ↔ ∃ f, Some f ∈ options ∧ is_Some (compilerOptions f !! k)).
Proof.
  intros options k.
  assert (compilerOptions (mergeTsconfigOptions options) !! k
          = last (omap (λ f, compilerOptions f !! k) (definedOptions options)))
    as Heq.
  { unfold mergeTsconfigOptions.
    rewrite (foldl_merge_step_last (λ f, compilerOptions f !! k)).
    - change (compilerOptions initial !! k) with ((∅ : gmap string json) !! k).
      rewrite lookup_empty. apply spread_prop_None_l.
    - intros a f. simpl. unfold spread. rewrite lookup_union.
      by destruct (compilerOptions f !! k), (compilerOptions a !! k). }
  split; [exact Heq|]. rewrite Heq. split.
  - intros [v Hv]. apply last_Some in Hv as [l Hl].
    assert (v ∈ omap (λ f, compilerOptions f !! k) (definedOptions options))
      as Hin by (rewrite Hl; set_solver).
    apply list_elem_of_omap in Hin as (f & Hf & Hfk).
    exists f. split; [|by rewrite Hfk].
    unfold definedOptions in Hf.
    apply list_elem_of_omap in Hf as (o & Ho & Hof). simpl in Hof.
    by subst o.
  - intros (f & Hf & [v Hv]).
    assert (v ∈ omap (λ f, compilerOptions f !! k) (definedOptions options))
      as Hin.
    { apply list_elem_of_omap. exists f. split; [|done].
      apply list_elem_of_omap. by exists (Some f). }
    destruct (omap _ (definedOptions options)) as [|x l] using rev_ind.
    + by apply not_elem_of_nil in Hin.
    + rewrite last_snoc. by eexists.
Qed.

End ConfigMergerLastWins.

(** ** TaskGraphBuilder: what the constructor does to the inherited tasks *)

Section TaskGraphBuilderMore.

Import ConfigMerger TaskGraphBuilder AppProject.

Implicit Types (options : TypeScriptProjectOptions) (super : NodeProject).

(** The hazard that [no_cleanup_otherwise] allows: tests compiled with the
    sources, run before the compilation, find the output directory as the
    last build left it. *)
Lemma no_cleanup_otherwise_example :
  let options :=
    mkProjectOptions None (Some "src") (Some "src/test") (Some false) None in
  let super :=
    mkNodeProject (mkTask "compile" None None [])
      (mkTask "test" None None [Exec "jest"])
      (mkTask "build" None None []) true "yarn" in
  compiledTests options = true
  ∧ compileBeforeTest options = false
  ∧ steps (testTask (node (TypeScriptProject_constructor options super)))
    = [Exec "jest"]
  ∧ steps (buildTask (node (TypeScriptProject_constructor options super)))
    = [Spawn "test"; Spawn "compile"; Spawn "package"].
Proof.
  intros options super.
  split; [reflexivity|]. split; [reflexivity|]. split; [|reflexivity].
  apply (no_cleanup_otherwise options super). right. left. reflexivity.
Defined.


(** The steps of the test task after line 383: the cleanup, when the guard
    of lines 352 and 375 holds, then the steps that the task had. *)
Lemma constructor_testTask_steps options super :
  steps (testTask (node (TypeScriptProject_constructor options super)))
  = (if jest super && negb (compiledTests options)
        && negb (compileBeforeTest options)
     then [Exec ("rm -fr " +:+ default "lib" (opt_libdir options) +:+ "/")]
     else [])
    ++ steps (testTask super).
Proof.
  unfold TypeScriptProject_constructor. simpl.
  by destruct (jest super && negb (compiledTests options)
               && negb (compileBeforeTest options)).
Qed.

(** X6: the statements of lines 222-234, run with the options that
    [TypeScriptAppProject] gives to [super], create a package task and have
    the build task spawn it last exactly when the options of the app have a
    [package] property that is [true] or [undefined]: the property replaces
    the [false] of line 480 whatever its value, and [undefined ?? true] is
    [true].  Without the property, or with [package: false], there is no
    package task and no spawn of one. *)
Theorem app_project_packages_on_request_only :
  ∀ (options : TypeScriptAppProjectOptions) super,
    let p := TypeScriptAppProject_constructor options super in
    let packaged :=
      match app_package options with
      | None => false
      | Some None => true
      | Some (Some requested) => requested
      end in
    packageTask p
    = (if packaged then Some (newPackageTask (packageManager super))
       else None)
    ∧ steps (buildTask (node p))
      = steps (buildTask super)
        ++ (if compileBeforeTest (TypeScriptAppProject_options options)
            then [Spawn (name (compileTask super));
                  Spawn (name (testTask super))]
            else [Spawn (name (testTask super));
                  Spawn (name (compileTask super))])
        ++ (if packaged then [Spawn "package"] else [])
    ∧ (packageTask p = None
       ↔ app_package options = None
         ∨ app_package options = Some (Some false)).
Proof.
  intros options super p packaged.
  assert (packageEnabled (TypeScriptAppProject_options options) = packaged)
    as Hpkg.
  { unfold packageEnabled, packaged. simpl.
    by destruct (app_package options) as [[[]|]|]. }
  assert (packageTask p
          = if packaged then Some (newPackageTask (packageManager super))
            else None) as Htask.
  { unfold p, TypeScriptAppProject_constructor, TypeScriptProject_constructor.
    simpl. by rewrite Hpkg. }
  split_and!; [done| |].
  - unfold p, TypeScriptAppProject_constructor.
    by rewrite constructor_buildTask_steps, Hpkg.
  - rewrite Htask. unfold packaged.
    destruct (app_package options) as [[[]|]|];
      (split; [intros Hnone; try discriminate; by auto
              |intros [Hcase|Hcase]; try discriminate; done]).
Qed.

(** The three shapes of the options: no [package] property, [package:
    undefined] and [package: true]. *)
Example app_project_package_examples :
  let super :=
    mkNodeProject (mkTask "compile" None None [])
      (mkTask "test" None None [Exec "jest"])
      (mkTask "build" None None []) true "yarn" in
  let app package :=
    TypeScriptAppProject_constructor
      (mkAppProjectOptions None None None None package) super in
  steps (buildTask (node (app None))) = [Spawn "test"; Spawn "compile"]
  ∧ packageTask (app None) = None
  ∧ steps (buildTask (node (app (Some None))))
    = [Spawn "test"; Spawn "compile"; Spawn "package"]
  ∧ steps (buildTask (node (app (Some (Some true)))))
    = [Spawn "test"; Spawn "compile"; Spawn "package"]
  ∧ steps (buildTask (node (app (Some (Some false)))))
    = [Spawn "test"; Spawn "compile"].
Proof. done. Qed.

End TaskGraphBuilderMore.

(** ** The tsconfig files *)

Section TsconfigProperties.

Import ConfigMerger TaskGraphBuilder TsconfigSynthesis.

Implicit Types (o : TsconfigOptions) (c base : TypescriptConfigOptions).

(** A base that has both lists, merged with the optional fragment of the
    user: one step from the base, an absent fragment counting as the empty
    one. *)
Lemma merge_base_user base user i e :
  include base = Some i → exclude base = Some e →
  mergeTsconfigOptions [Some base; user]
  = merge_step base (default initial user).
Proof.
  intros Hi He. destruct user as [u|]; unfold mergeTsconfigOptions; simpl.
  - by rewrite (merge_step_initial_present base i e).
  - by rewrite (merge_step_initial_present base i e),
      (merge_step_initial_r base i e).
Qed.

Lemma tsconfig_Some o c :
  tsconfig o = Some c →
  c = merge_step (baseTsconfig o) (default initial (opt_tsconfig o)).
Proof.
  unfold tsconfig. destruct (default false (opt_disableTsconfig o)); [done|].
  intros [= <-]. by eapply merge_base_user.
Qed.

Lemma tsconfigJest_Some PROJEN_RC jest o c :
  tsconfigJest PROJEN_RC jest o = Some c →
  c = merge_step (baseTsconfigFor PROJEN_RC "tsconfig.jest.json" o)
        (default initial (opt_tsconfig o)).
Proof.
  unfold tsconfigJest.
  destruct (jest && negb (compiledTests (project o))); [|done].
  intros [= <-]. by eapply merge_base_user.
Qed.

Lemma tsconfigEslint_Some PROJEN_RC o c :
  tsconfigEslint PROJEN_RC o = Some c →
  c = merge_step (baseTsconfigFor PROJEN_RC "tsconfig.eslint.json" o)
        (default initial (opt_tsconfig o)).
Proof.
  unfold tsconfigEslint. destruct (default true (opt_eslint o)); [|done].
  intros [= <-]. by eapply merge_base_user.
Qed.

Lemma compilerOptionDefaults_no_dirs :
  compilerOptionDefaults !! "rootDir" = None
  ∧ compilerOptionDefaults !! "outDir" = None.
Proof. by vm_compute. Qed.

#[local] Opaque compilerOptionDefaults.

Lemma lookup_spread (previous current : gmap string json) (k : string) :
  spread previous current !! k
  = match current !! k with Some v => Some v | None => previous !! k end.
Proof.
  unfold spread. rewrite lookup_union.
  by destruct (current !! k), (previous !! k).
Qed.

(** X7: in each tsconfig that the constructor produces, the globs of the
    project come first and those of the user's [tsconfig] option after them:
    the user can add to [include] and [exclude] and cannot remove the source
    glob, [node_modules] or the output directory from them. *)
Theorem tsconfig_globs_after_the_defaults :
  ∀ PROJEN_RC jest o c,
    let user := default initial (opt_tsconfig o) in
    (tsconfig o = Some c →
     include c
     = Some ((srcdir_of o +:+ "/**/*.ts") :: include_or_empty user)
     ∧ exclude c
       = Some ("node_modules" :: libdir_of o :: exclude_or_empty user))
    ∧ (tsconfigJest PROJEN_RC jest o = Some c
       ∨ tsconfigEslint PROJEN_RC o = Some c →
       include c
       = Some ([ PROJEN_RC; srcdir_of o +:+ "/**/*.ts";
                 testdir_of o +:+ "/**/*.ts" ] ++ include_or_empty user)
       ∧ exclude c = Some ("node_modules" :: exclude_or_empty user)).
Proof.
  intros PROJEN_RC jest o c user. split.
  - by intros ->%tsconfig_Some.
  - by intros [->%tsconfigJest_Some | ->%tsconfigEslint_Some].
Qed.

Lemma tsconfig_globs_after_the_defaults_example :
  ∃ c,
    tsconfig example_options = Some c
    ∧ include c = Some ["src/**/*.ts"; "extra/**/*.ts"]
    ∧ exclude c = Some ["node_modules"; "lib"; "tmp"].
Proof.
  eexists. split; [reflexivity|].
  apply (tsconfig_globs_after_the_defaults ".projenrc.js" true
           example_options).
  reflexivity.
Defined.

(** X8: in the main tsconfig every compiler option of the user's [tsconfig]
    has the user's value; an option that the user does not set has the value
    of the defaults, and [rootDir] and [outDir] are then the source and the
    output directory. *)
Theorem tsconfig_compilerOptions_precedence :
  ∀ o c (k : string),
    tsconfig o = Some c →
    let user := default initial (opt_tsconfig o) in
    compilerOptions c !! k
    = match compilerOptions user !! k with
      | Some v => Some v
      | None =>
          if decide (k = "rootDir") then Some (JStr (srcdir_of o))
          else if decide (k = "outDir") then Some (JStr (libdir_of o))
          else compilerOptionDefaults !! k
      end.
Proof.
  intros o c k ->%tsconfig_Some user.
  destruct compilerOptionDefaults_no_dirs as [Hroot Hout].
  unfold merge_step, baseTsconfig. cbn [compilerOptions].
  rewrite !lookup_spread. fold user.
  destruct (compilerOptions user !! k) as [v|]; [done|].
  destruct (decide (k = "rootDir")) as [->|Hk1].
  { by rewrite Hroot, lookup_insert_eq. }
  destruct (decide (k = "outDir")) as [->|Hk2].
  { by rewrite Hout, lookup_insert_ne, lookup_singleton_eq. }
  rewrite lookup_insert_ne, lookup_singleton_ne by done.
  by destruct (compilerOptionDefaults !! k).
Qed.

Lemma tsconfig_compilerOptions_precedence_example :
  ∃ c,
    tsconfig example_options = Some c
    ∧ compilerOptions c !! "strict" = Some (JBool false)
    ∧ compilerOptions c !! "outDir" = Some (JStr "out")
    ∧ compilerOptions c !! "rootDir" = Some (JStr "src")
    ∧ compilerOptions c !! "target" = Some (JStr "ES2018").
Proof.
  eexists. split; [reflexivity|].
  split; [|split; [|split]];
    by rewrite (tsconfig_compilerOptions_precedence example_options _ _
                  eq_refl).
Defined.

(** X9: the tsconfig files of jest and of eslint hold the defaults and the
    user's compiler options, the user's value winning; they have a [rootDir]
    or an [outDir] exactly when the user's [tsconfig] sets one. *)
Theorem test_tsconfig_has_no_dirs_of_its_own :
  ∀ PROJEN_RC jest o c (k : string),
    tsconfigJest PROJEN_RC jest o = Some c
    ∨ tsconfigEslint PROJEN_RC o = Some c →
    let user := default initial (opt_tsconfig o) in
    compilerOptions c !! k
    = match compilerOptions user !! k with
      | Some v => Some v
      | None => compilerOptionDefaults !! k
      end
    ∧ compilerOptions c !! "rootDir" = compilerOptions user !! "rootDir"
    ∧ compilerOptions c !! "outDir" = compilerOptions user !! "outDir".
Proof.
  intros PROJEN_RC jest o c k Hc user.
  assert (∀ j, compilerOptions c !! j
               = match compilerOptions user !! j with
                 | Some v => Some v
                 | None => compilerOptionDefaults !! j
                 end) as Hlookup.
  { intros j.
    destruct Hc as [->%tsconfigJest_Some | ->%tsconfigEslint_Some];
      unfold merge_step, baseTsconfigFor; cbn [compilerOptions];
      by rewrite lookup_spread. }
  destruct compilerOptionDefaults_no_dirs as [Hroot Hout].
  split_and!; [done| |]; rewrite Hlookup, ?Hroot, ?Hout;
    by destruct (compilerOptions user !! _).
Qed.

Lemma test_tsconfig_has_no_dirs_of_its_own_example :
  ∃ c,
    tsconfigJest ".projenrc.js" true example_options = Some c
    ∧ compilerOptions c !! "rootDir" = None
    ∧ compilerOptions c !! "outDir" = Some (JStr "out").
Proof.
  eexists. split; [reflexivity|].
  destruct (test_tsconfig_has_no_dirs_of_its_own ".projenrc.js" true
              example_options _ "strict" (or_introl eq_refl))
    as (_ & Hroot & Hout).
  split; [by rewrite Hroot|by rewrite Hout].
Defined.

(** X10: the [fileName] of the options that the constructor computes and
    hands to [new TypescriptConfig] (line 283), to
    [jest.generateTypescriptConfig] (line 370) and to [new TypescriptConfig]
    (line 407), each at its own place.  When the user's [tsconfig] option
    has a [fileName] property, that property replaces the one of the base,
    with its value, be it [undefined]: the options for jest and for eslint
    then lose [tsconfig.jest.json] and [tsconfig.eslint.json] and name the
    file that the options of the main tsconfig name.  Without the property
    the main options have no [fileName] and the other two keep their own.
    What the three callees do with the options, and with two requests for
    one file name, is not part of this file. *)
Theorem tsconfig_fileName_of_the_user_wins :
  ∀ PROJEN_RC jest o,
    let user := default initial (opt_tsconfig o) in
    (∀ c, tsconfig o = Some c → fileName c = fileName user)
    ∧ (∀ c, tsconfigJest PROJEN_RC jest o = Some c →
            fileName c
            = match fileName user with
              | Some value => Some value
              | None => Some (Some "tsconfig.jest.json")
              end)
    ∧ (∀ c, tsconfigEslint PROJEN_RC o = Some c →
            fileName c
            = match fileName user with
              | Some value => Some value
              | None => Some (Some "tsconfig.eslint.json")
              end)
    ∧ (∀ main other,
         tsconfig o = Some main →
         tsconfigJest PROJEN_RC jest o = Some other
         ∨ tsconfigEslint PROJEN_RC o = Some other →
         is_Some (fileName user) →
         read_fileName other = read_fileName main).
Proof.
  intros PROJEN_RC jest o user.
  assert (∀ c, tsconfig o = Some c → fileName c = fileName user) as Hmain.
  { intros c ->%tsconfig_Some. simpl. apply spread_prop_None_l. }
  assert (∀ name c,
            c = merge_step (baseTsconfigFor PROJEN_RC name o) user →
            fileName c
            = match fileName user with
              | Some value => Some value
              | None => Some (Some name)
              end) as Hother.
  { intros name c ->. simpl. by destruct (fileName user). }
  split_and!; [done|..].
  - intros c Hc%tsconfigJest_Some. by apply Hother.
  - intros c Hc%tsconfigEslint_Some. by apply Hother.
  - intros main other Hm Ho [value Hvalue]. unfold read_fileName.
    rewrite (Hmain main Hm), Hvalue.
    destruct Ho as [Ho%tsconfigJest_Some|Ho%tsconfigEslint_Some];
      by rewrite (Hother _ other Ho), Hvalue.
Qed.

(** The main tsconfig and the one of jest, for a user who names the file:
    both sets of options are computed, and both name the user's file. *)
Lemma tsconfig_fileName_of_the_user_wins_example :
  ∃ main forJest,
    tsconfig example_options = Some main
    ∧ tsconfigJest ".projenrc.js" true example_options = Some forJest
    ∧ read_fileName main = Some "tsconfig.custom.json"
    ∧ read_fileName forJest = Some "tsconfig.custom.json".
Proof.
  destruct (tsconfig_fileName_of_the_user_wins ".projenrc.js" true
              example_options) as (Hmain & Hjest & _ & _).
  eexists _, _.
  split; [reflexivity|]. split; [reflexivity|]. unfold read_fileName.
  split; [by rewrite (Hmain _ eq_refl)|by rewrite (Hjest _ eq_refl)].
Defined.

End TsconfigProperties.

(** ** PathRemapper: the other direction, and the paths outside the roots *)

Section PathRemapperMore.

Import PathRemapper.

Implicit Types (s d stem ext seg libtest srctest : list ascii).

Local Abbreviation nosep := (Forall (λ c, is_sep c = false)).

Lemma nosep_dot_js : nosep (chars ".js").
Proof. by repeat constructor. Qed.

Lemma nosep_dot_ts ext : nosep ext → nosep (chars ".ts" ++ ext).
Proof. intros Hext. apply Forall_app. split; [by repeat constructor|done]. Qed.

(** The snapshot path of [d/stem.js] when the replacement turns [d] into
    [d'], and the test path of [d/__snapshots__/stem.ts] followed by
    [ext]. *)
Lemma resolveSnapshotPath_in_dir libtest srctest d d' stem ext :
  nosep ext → stem ≠ [] → nosep stem →
  is_clean_path d' = true →
  str_replace (d ++ "/"%char :: stem ++ chars ".js") libtest srctest
  = d' ++ "/"%char :: stem ++ chars ".js" →
  resolveSnapshotPath libtest srctest
    (d ++ "/"%char :: stem ++ chars ".js") ext
  = (d' ++ "/"%char :: chars "__snapshots__")
      ++ "/"%char :: stem ++ chars ".ts" ++ ext.
Proof.
  intros Hext Hstem Hsep Hd Hreplaced. unfold resolveSnapshotPath.
  rewrite Hreplaced.
  rewrite dirname_clean;
    [|done|by destruct stem|apply Forall_app; auto using nosep_dot_js].
  rewrite basename_strips by auto using nosep_dot_js.
  apply join_clean3; [done|apply is_clean_segment_snapshots|].
  apply is_clean_segment_name; auto using nosep_dot_ts.
  rewrite length_app. simpl. lia.
Qed.

Lemma resolveTestPath_of_snapshot libtest srctest d stem ext :
  nosep ext → stem ≠ [] → nosep stem →
  is_clean_path d = true →
  is_clean_path (str_replace d srctest libtest) = true →
  resolveTestPath libtest srctest
    ((d ++ "/"%char :: chars "__snapshots__")
       ++ "/"%char :: stem ++ chars ".ts" ++ ext) ext
  = str_replace d srctest libtest ++ "/"%char :: stem ++ chars ".js".
Proof.
  intros Hext Hstem Hsep Hd Hd'. unfold resolveTestPath.
  assert (is_clean_path (d ++ "/"%char :: chars "__snapshots__") = true)
    as Hsnaps.
  { apply is_clean_path_snoc; [done|apply is_clean_segment_snapshots]. }
  rewrite basename_strips; auto using nosep_dot_ts.
  rewrite dirname_clean;
    [|done|by destruct stem|apply Forall_app; auto using nosep_dot_ts].
  rewrite dirname_clean; [|done|done|by repeat constructor].
  apply join_clean; [done|].
  apply is_clean_segment_name; auto using nosep_dot_js; simpl; lia.
Qed.

(** X11: a normalized path [d/stem.js] that does not contain the
    compiled-test root, in a directory that does not contain the source-test
    root, is mapped to [d/__snapshots__/stem.ts] followed by [ext] and comes
    back unchanged; this is the case of the path that jest uses for its
    consistency check (line 345). *)
Theorem round_trip_outside_the_roots :
  ∀ libtest srctest ext d stem,
    "/"%char ∉ ext →
    stem ≠ [] → "/"%char ∉ stem →
    is_clean_path d = true →
    includes libtest (d ++ chars "/" ++ stem ++ chars ".js") = false →
    includes srctest d = false →
    let p := d ++ chars "/" ++ stem ++ chars ".js" in
    resolveSnapshotPath libtest srctest p ext
    = d ++ chars "/__snapshots__/" ++ stem ++ chars ".ts" ++ ext
    ∧ resolveTestPath libtest srctest
        (resolveSnapshotPath libtest srctest p ext) ext
      = p.
Proof.
  intros libtest srctest ext d stem Hext%nosep_notin Hstem Hsep%nosep_notin
    Hd Hlib Hsrc p.
  assert (resolveSnapshotPath libtest srctest p ext
          = (d ++ "/"%char :: chars "__snapshots__")
              ++ "/"%char :: stem ++ chars ".ts" ++ ext) as Hsnap.
  { apply resolveSnapshotPath_in_dir; try done.
    by apply str_replace_absent. }
  split.
  - rewrite Hsnap. by rewrite <- app_assoc.
  - rewrite Hsnap, resolveTestPath_of_snapshot
      by (rewrite ?str_replace_absent; done).
    by rewrite str_replace_absent.
Qed.

Lemma round_trip_outside_the_roots_example :
  let p := chars "some/__tests__/example.test.js" in
  resolveSnapshotPath (chars "lib/test") (chars "src/test") p (chars ".snap")
  = chars "some/__tests__/__snapshots__/example.test.ts.snap"
  ∧ resolveTestPath (chars "lib/test") (chars "src/test")
      (resolveSnapshotPath (chars "lib/test") (chars "src/test") p
         (chars ".snap")) (chars ".snap")
    = p.
Proof.
  intros p.
  apply (round_trip_outside_the_roots (chars "lib/test") (chars "src/test")
           (chars ".snap") (chars "some/__tests__") (chars "example.test"));
    try reflexivity; try discriminate; compute_done.
Defined.

(** X12: the other direction.  Let [snap] be [d/__snapshots__/stem.ts]
    followed by [ext], where [d] is a normalized directory that contains the
    source-test root; let the directory got from [d] by replacing the first
    source-test root by the compiled-test root be normalized too, with the
    first compiled-test root at the place of that source-test root.  Then the
    test path of [snap] is that directory, [/], [stem.js], and its snapshot
    path is [snap]. *)
Theorem test_path_round_trip :
  ∀ libtest srctest ext d stem i,
    "$"%char ∉ libtest → "$"%char ∉ srctest →
    "/"%char ∉ ext →
    stem ≠ [] → "/"%char ∉ stem →
    is_clean_path d = true →
    is_clean_path (str_replace d srctest libtest) = true →
    indexOf srctest d = Some i →
    indexOf libtest (str_replace d srctest libtest) = Some i →
    let snap := d ++ chars "/__snapshots__/" ++ stem ++ chars ".ts" ++ ext in
    resolveTestPath libtest srctest snap ext
    = str_replace d srctest libtest ++ chars "/" ++ stem ++ chars ".js"
    ∧ resolveSnapshotPath libtest srctest
        (resolveTestPath libtest srctest snap ext) ext
      = snap.
Proof.
  intros libtest srctest ext d stem i Hlib Hsrc Hext%nosep_notin Hstem
    Hsep%nosep_notin Hd Hd' Hi Hback snap.
  assert (snap = (d ++ "/"%char :: chars "__snapshots__")
                   ++ "/"%char :: stem ++ chars ".ts" ++ ext) as Hsnap.
  { unfold snap. by rewrite <- app_assoc. }
  assert (resolveTestPath libtest srctest snap ext
          = str_replace d srctest libtest
              ++ "/"%char :: stem ++ chars ".js") as Htest.
  { rewrite Hsnap. by apply resolveTestPath_of_snapshot. }
  split; [exact Htest|].
  rewrite Htest, Hsnap.
  apply resolveSnapshotPath_in_dir; try done.
  rewrite (str_replace_app _ _ libtest srctest i) by done.
  by rewrite (str_replace_back d srctest libtest i).
Qed.

Lemma test_path_round_trip_example :
  let snap :=
    chars "/home/dev/project/src/test/unit/__snapshots__/hello.test.ts.snap" in
  resolveTestPath (chars "lib/test") (chars "src/test") snap (chars ".snap")
  = chars "/home/dev/project/lib/test/unit/hello.test.js"
  ∧ resolveSnapshotPath (chars "lib/test") (chars "src/test")
      (resolveTestPath (chars "lib/test") (chars "src/test") snap
         (chars ".snap")) (chars ".snap")
    = snap.
Proof.
  intros snap.
  apply (test_path_round_trip (chars "lib/test") (chars "src/test")
           (chars ".snap") (chars "/home/dev/project/src/test/unit")
           (chars "hello.test") 18);
    try reflexivity; try discriminate; compute_done.
Defined.

End PathRemapperMore.

(** ** The [types] field of the package *)

Section EntrypointTypesProperties.

Import PathRemapper EntrypointTypes.

Implicit Types (s d stem : list ascii).

Local Abbreviation nosep := (Forall (λ c, is_sep c = false)).

Example derivedTypes_examples :
  derivedTypes (chars "lib/index.js") = chars "lib/index.d.ts"
  ∧ derivedTypes (chars "index.js") = chars "index.d.ts"
  ∧ derivedTypes (chars "lib/cli/main.js") = chars "lib/cli/main.d.ts"
  ∧ derivedTypes (chars "lib/index.mjs") = chars "lib/index.mjs.d.ts"
  ∧ derivedTypes ("l" :: "i" :: "b" :: "092" :: chars "index.js")%char
    = chars "lib/index.d.ts"
  ∧ entrypointTypes None (chars "") = None
  ∧ entrypointTypes (Some (chars "")) (chars "lib/index.js")
    = Some (chars "").
Proof. by vm_compute. Qed.

Lemma dirname_loop_nosep r matchedSlash :
  nosep r → dirname_loop r matchedSlash = None.
Proof.
  intros Hr. revert matchedSlash.
  induction Hr as [|c r Hc Hr IH]; intros ms; simpl; [done|].
  by rewrite Hc.
Qed.

(** The directory of a bare name is [.]. *)
Lemma dirname_nosep s : s ≠ [] → nosep s → dirname s = chars ".".
Proof.
  intros Hs Hsep. destruct Hsep as [|c s Hc Hsep]; [done|].
  unfold dirname. rewrite dirname_loop_nosep by (by apply nosep_rev).
  by rewrite Hc.
Qed.

Lemma basename_suffix_loop_rest_end n fnse e :
  nosep n →
  basename_suffix_loop n false [] (Some fnse) e = (0, e, Some fnse).
Proof. induction 1 as [|c n Hc Hn IH]; simpl; [done|]. by rewrite Hc. Qed.

Lemma basename_suffix_loop_match_end ext n fnse e :
  ext ≠ [] → nosep ext → nosep n →
  basename_suffix_loop (ext ++ n) false ext (Some fnse) e
  = (0, Some (length n), Some fnse).
Proof.
  intros Hne Hext Hn. revert e.
  induction Hext as [|x ext Hx Hext IH]; intros e; [done|].
  simpl. rewrite Hx, Ascii.eqb_refl.
  destruct ext as [|x' ext].
  - simpl. by rewrite basename_suffix_loop_rest_end.
  - by rewrite IH.
Qed.

(** The base name of a bare [stem+suffix] without the suffix is [stem]. *)
Lemma basename_strips_bare stem suffix :
  stem ≠ [] → nosep stem → suffix ≠ [] → nosep suffix →
  basename (stem ++ suffix) suffix = stem.
Proof.
  intros Hstem Hsep Hsuffix Hsepx. unfold basename.
  rewrite (bool_decide_eq_true_2 _ Hsuffix). simpl.
  assert ((length suffix <=? length (stem ++ suffix))%nat = true) as ->.
  { apply Nat.leb_le. rewrite length_app. lia. }
  rewrite bool_decide_eq_false_2.
  2:{ intros Heq. apply (f_equal length) in Heq.
      rewrite length_app in Heq. destruct stem; [done|]. simpl in Heq. lia. }
  rewrite rev_app_distr.
  assert (∃ x ext, rev suffix = x :: ext ∧ is_sep x = false ∧ nosep ext)
    as (x & ext & Hrev & Hx & Hext).
  { pose proof (nosep_rev _ Hsepx) as Hr.
    pose proof (rev_nonempty _ Hsuffix) as Hne.
    destruct Hr as [|x ext Hx Hext]; [done|]. by exists x, ext. }
  rewrite Hrev. simpl. rewrite Hx, Ascii.eqb_refl.
  assert (basename_suffix_loop (ext ++ rev stem) false ext
            (Some (length (ext ++ rev stem) + 1))
            match ext with
            | [] => Some (length (ext ++ rev stem))
            | _ :: _ => None
            end
          = (0, Some (length stem), Some (length (ext ++ rev stem) + 1)))
    as ->.
  { destruct ext as [|x' ext].
    - simpl. rewrite basename_suffix_loop_rest_end by (by apply nosep_rev).
      by rewrite length_rev.
    - rewrite basename_suffix_loop_match_end by (by try apply nosep_rev).
      by rewrite length_rev. }
  rewrite bool_decide_eq_false_2.
  2:{ intros [= Heq]. by destruct stem. }
  unfold slice. by rewrite Nat.sub_0_r, drop_0, take_app_length.
Qed.

Lemma normalize_relative c s :
  is_sep c = false →
  (∀ c', last (c :: s) = Some c' → is_sep c' = false) →
  normalizeString (c :: s) true ≠ [] →
  normalize (c :: s) = normalizeString (c :: s) true.
Proof.
  intros Hc Hlast Hne. unfold normalize. cbv beta iota zeta.
  rewrite Hc. simpl negb.
  destruct (normalizeString (c :: s) true) as [|c1 n]; [done|].
  destruct (last (c :: s)) as [c'|]; [|done].
  by rewrite (Hlast c' eq_refl).
Qed.

(** Joining [.] and a clean name gives the name. *)
Lemma join_dot seg :
  is_clean_segment seg = true → join [chars "."; seg] = seg.
Proof.
  intros Hseg.
  pose proof (proj1 (is_clean_segment_spec seg) Hseg)
    as (Hne & _ & _ & Hsep).
  destruct seg as [|c seg]; [done|].
  change (join [chars "."; c :: seg])
    with (normalize ("."%char :: chars "/" ++ c :: seg)).
  assert (normalizeString ("."%char :: chars "/" ++ c :: seg) true = c :: seg)
    as Hnorm.
  { unfold normalizeString.
    change ("."%char :: chars "/" ++ c :: seg)
      with (chars "." ++ "/"%char :: c :: seg).
    rewrite split_sep_app, (split_sep_nosep (c :: seg)) by done.
    change (foldl (normalize_step true) [] (split_sep (chars ".") ++ [c :: seg]))
      with (normalize_step true [] (c :: seg)).
    by rewrite normalize_step_clean. }
  rewrite normalize_relative, Hnorm; [done|done| |by rewrite Hnorm].
  intros c' Hlast.
  change (last ("."%char :: chars "/" ++ c :: seg)) with (last (c :: seg))
    in Hlast.
  apply last_Some in Hlast as [l Hl]. rewrite Hl in Hsep.
  apply Forall_app in Hsep as [_ Hc']. by inversion Hc'.
Qed.

Lemma backslashes_to_slashes_id s :
  "092"%char ∉ s → backslashes_to_slashes s = s.
Proof.
  induction s as [|c s IH]; [done|].
  intros [Hc Hs]%not_elem_of_cons. simpl.
  destruct (Ascii.eqb c "092") eqn:Heq.
  - apply Ascii.eqb_eq in Heq. congruence.
  - by rewrite <- (IH Hs) at 2.
Qed.

(** X13: without an [entrypointTypes] option, the [types] field of an
    entrypoint [d/stem.js] is [d/stem.d.ts], and the one of a bare [stem.js]
    is [stem.d.ts]: the declaration file sits next to the entrypoint. *)
Theorem types_sit_next_to_the_entrypoint :
  ∀ d stem,
    is_clean_path d = true →
    is_clean_segment stem = true →
    "092"%char ∉ d → "092"%char ∉ stem →
    entrypointTypes None (d ++ chars "/" ++ stem ++ chars ".js")
    = Some (d ++ chars "/" ++ stem ++ chars ".d.ts")
    ∧ entrypointTypes None (stem ++ chars ".js")
      = Some (stem ++ chars ".d.ts").
Proof.
  intros d stem Hd Hstem Hbd Hbs.
  pose proof (proj1 (is_clean_segment_spec stem) Hstem)
    as (Hne & _ & _ & Hsep).
  assert (nosep (chars ".js")) as Hjs by (by repeat constructor).
  split.
  - unfold entrypointTypes.
    assert (is_empty (d ++ chars "/" ++ stem ++ chars ".js") = false) as ->
      by (by destruct d).
    simpl orb. cbv iota. f_equal. unfold derivedTypes.
    change (d ++ chars "/" ++ stem ++ chars ".js")
      with (d ++ "/"%char :: stem ++ chars ".js").
    rewrite dirname_clean; [|done|by destruct stem|by apply Forall_app].
    rewrite basename_strips by done.
    rewrite join_clean by done.
    rewrite backslashes_to_slashes_id.
    + by rewrite <- app_assoc.
    + rewrite elem_of_app, elem_of_cons. intros [?|[?|?]]; done.
  - unfold entrypointTypes.
    assert (is_empty (stem ++ chars ".js") = false) as -> by (by destruct stem).
    simpl orb. cbv iota. f_equal. unfold derivedTypes.
    rewrite dirname_nosep; [|by destruct stem|by apply Forall_app].
    rewrite basename_strips_bare by done.
    rewrite join_dot by done.
    by rewrite backslashes_to_slashes_id.
Qed.

Lemma types_sit_next_to_the_entrypoint_example :
  entrypointTypes None (chars "lib/index.js") = Some (chars "lib/index.d.ts")
  ∧ entrypointTypes None (chars "index.js") = Some (chars "index.d.ts").
Proof.
  apply (types_sit_next_to_the_entrypoint (chars "lib") (chars "index"));
    try reflexivity; compute_done.
Defined.

(** X14: the [types] field that the constructor derives from the entrypoint
    holds no backslash, whatever the entrypoint is; it is derived exactly
    when there is an entrypoint and no [entrypointTypes] option. *)
Theorem derived_types_have_no_backslash :
  ∀ entrypoint,
    ("092"%char ∉ derivedTypes entrypoint)
    ∧ entrypointTypes None entrypoint
      = (if is_empty entrypoint then None
         else Some (derivedTypes entrypoint)).
Proof.
  intros entrypoint. split.
  - unfold derivedTypes, backslashes_to_slashes.
    rewrite elem_of_app. intros [Hin|Hin].
    + apply list_elem_of_fmap in Hin as (c & Hc & _).
      destruct (Ascii.eqb c "092") eqn:Heq; [done|].
      apply Ascii.eqb_neq in Heq. by subst.
    + by repeat (apply elem_of_cons in Hin as [?|Hin]; [done|]);
        apply not_elem_of_nil in Hin.
  - unfold entrypointTypes. by destruct entrypoint.
Qed.

End EntrypointTypesProperties.

(** ** The roots of the snapshot resolver *)

Section SnapshotRootsProperties.

Import PathRemapper SnapshotRoots.

Implicit Types (s cwd body rest libdir srcdir : list ascii).

Local Abbreviation clean_segments s :=
  (forallb is_clean_segment (split_sep s) = true).

Example relative_examples :
  let cwd := chars "/home/dev/project" in
  relative cwd (chars "/data/orandea/test/aaa") (chars "/data/orandea/impl/bbb")
  = chars "../../impl/bbb"
  ∧ relative cwd (chars "/var/lib") (chars "/var") = chars ".."
  ∧ relative cwd (chars "/var/lib") (chars "/var/lib") = chars ""
  ∧ relative cwd (chars "/var/lib") (chars "/var/apache") = chars "../apache"
  ∧ relative cwd (chars "/var/") (chars "/var/lib") = chars "lib"
  ∧ relative cwd (chars "/") (chars "/var/lib") = chars "var/lib"
  ∧ relative cwd (chars "/foo/bar/baz-quux") (chars "/foo/bar/baz")
    = chars "../baz"
  ∧ relative cwd (chars "/baz") (chars "/baz-quux") = chars "../baz-quux"
  ∧ relative cwd (chars "/page1/page2/foo") (chars "/") = chars "../../.."
  ∧ relative cwd (chars "src") (chars "src/test") = chars "test"
  ∧ relative cwd (chars "src") (chars "test") = chars "../test"
  ∧ relative cwd (chars "src") (chars "srcfoo") = chars "../srcfoo"
  ∧ resolve cwd [chars "/foo/bar"; chars "./baz"] = chars "/foo/bar/baz"
  ∧ resolve cwd [chars "a/b/c/"; chars "../../.."] = cwd
  ∧ resolve cwd [chars "/some/dir"; chars "."; chars "/absolute/"]
    = chars "/absolute".
Proof. by vm_compute. Qed.

Lemma normalize_step_empty allowAboveRoot res :
  normalize_step allowAboveRoot res [] = res.
Proof. done. Qed.

Lemma clean_segments_app s rest :
  clean_segments s → clean_segments rest →
  clean_segments (s ++ "/"%char :: rest).
Proof. intros Hs Hrest. by rewrite split_sep_app, forallb_app, Hs, Hrest. Qed.

(** What [resolve] normalizes for a relative [s] in the directory [/body]:
    the separators at both ends add nothing. *)
Lemma normalizeString_resolved body s :
  clean_segments body → clean_segments s →
  normalizeString (("/"%char :: body) ++ "/"%char :: s ++ ["/"%char]) false
  = body ++ "/"%char :: s.
Proof.
  intros Hbody Hs. unfold normalizeString.
  change (s ++ ["/"%char]) with (s ++ "/"%char :: []).
  rewrite !split_sep_app.
  change (split_sep ("/"%char :: body)) with ([] :: split_sep body).
  change (split_sep []) with [[] : list ascii].
  rewrite (assoc_L (++)), foldl_snoc, normalize_step_empty.
  change (([] :: split_sep body) ++ split_sep s)
    with ([] :: (split_sep body ++ split_sep s)).
  change (foldl (normalize_step false) [] ([] :: (split_sep body ++ split_sep s)))
    with (foldl (normalize_step false) [] (split_sep body ++ split_sep s)).
  rewrite foldl_normalize_step_clean by (by rewrite forallb_app, Hbody, Hs).
  by rewrite app_nil_r, rev_involutive, <- split_sep_app, join_sep_split.
Qed.

(** A clean relative path resolves to the working directory followed by
    it. *)
Lemma resolve_relative body s :
  clean_segments body → clean_segments s →
  resolve ("/"%char :: body) [s] = ("/"%char :: body) ++ "/"%char :: s.
Proof.
  intros Hbody Hs.
  destruct (clean_segments_shape s Hs) as [(c & s' & -> & Hc) _].
  unfold resolve. simpl rev. simpl app at 1.
  change (resolve_loop [c :: s'; "/"%char :: body] [])
    with (if is_sep c
          then ((c :: s') ++ ["/"%char], true)
          else (("/"%char :: body) ++ "/"%char :: (c :: s') ++ ["/"%char],
                true)).
  rewrite Hc. simpl negb. cbv iota.
  by rewrite normalizeString_resolved.
Qed.

Lemma common_loop_prefix from rest i lastCommonSep1 :
  ∃ l, common_loop from (from ++ rest) i lastCommonSep1
       = (i + length from, l).
Proof.
  revert i lastCommonSep1. induction from as [|c from IH]; intros i l.
  - exists l. simpl. rewrite Nat.add_0_r. by destruct rest.
  - simpl. rewrite Ascii.eqb_refl.
    destruct (IH (S i) (if is_sep c then S i else l)) as [l' ->].
    exists l'. f_equal. lia.
Qed.

(** [relative] on two paths of which the second resolves to the first,
    a separator and [rest]. *)
Lemma relative_resolved cwd a b f0 from rest :
  a ≠ b →
  resolve cwd [a] = f0 :: from →
  resolve cwd [b] = (f0 :: from) ++ "/"%char :: rest →
  relative cwd a b = rest.
Proof.
  intros Hab Ha Hb. unfold relative.
  rewrite (bool_decide_eq_false_2 _ Hab), Ha, Hb.
  rewrite bool_decide_eq_false_2.
  2:{ intros Heq. apply (f_equal length) in Heq.
      rewrite length_app in Heq. simpl in Heq. lia. }
  change (drop 1 (f0 :: from)) with from.
  change (drop 1 ((f0 :: from) ++ "/"%char :: rest))
    with (from ++ "/"%char :: rest).
  destruct (common_loop_prefix from ("/"%char :: rest) 0 0) as [l Hloop].
  rewrite Hloop. clear Hloop.
  replace (length (f0 :: from) - 1) with (length from) by (simpl; lia).
  replace (length ((f0 :: from) ++ "/"%char :: rest) - 1)
    with (length from + S (length rest))
    by (rewrite length_app; simpl; lia).
  rewrite Nat.min_l by lia.
  change (0 + length from) with (length from).
  rewrite Nat.eqb_refl.
  assert ((length from <? length from + S (length rest))%nat = true) as ->
    by (apply Nat.ltb_lt; lia).
  assert (((f0 :: from) ++ "/"%char :: rest) !! (1 + length from)
          = Some "/"%char) as ->.
  { change (1 + length from) with (length (f0 :: from)).
    by rewrite list_lookup_middle. }
  change (is_sep "/") with true. cbv beta iota zeta. simpl andb. cbv iota.
  replace (1 + length from + 1) with (length ((f0 :: from) ++ ["/"%char]))
    by (rewrite length_app; simpl; lia).
  change ((f0 :: from) ++ "/"%char :: rest)
    with ((f0 :: from) ++ ["/"%char] ++ rest).
  by rewrite (assoc_L (++)), drop_app_length.
Qed.

(** From a directory to a path below it: the part below. *)
Lemma relative_below body s rest :
  clean_segments body → clean_segments s → clean_segments rest →
  relative ("/"%char :: body) s (s ++ "/"%char :: rest) = rest.
Proof.
  intros Hbody Hs Hrest.
  apply (relative_resolved _ _ _ "/"%char (body ++ "/"%char :: s)).
  - intros Heq. apply (f_equal length) in Heq.
    rewrite length_app in Heq. simpl in Heq. lia.
  - by apply resolve_relative.
  - rewrite resolve_relative by auto using clean_segments_app.
    change (("/"%char :: body ++ "/"%char :: s) ++ "/"%char :: rest)
      with ("/"%char :: (body ++ "/"%char :: s) ++ "/"%char :: rest).
    simpl. by rewrite <- app_assoc.
Qed.

Lemma is_clean_path_app path rest :
  is_clean_path path = true → clean_segments rest →
  is_clean_path (path ++ "/"%char :: rest) = true.
Proof.
  intros [(c & s & -> & Hc & Hclean)|(s & -> & Hclean)]%is_clean_path_cases
    Hrest.
  - change ((c :: s) ++ "/"%char :: rest) with (c :: (s ++ "/"%char :: rest)).
    rewrite is_clean_path_relative by done.
    change (c :: (s ++ "/"%char :: rest)) with ((c :: s) ++ "/"%char :: rest).
    by apply clean_segments_app.
  - change (("/"%char :: s) ++ "/"%char :: rest)
      with ("/"%char :: (s ++ "/"%char :: rest)).
    rewrite is_clean_path_absolute. by apply clean_segments_app.
Qed.

(** X15: for a source directory [srcdir] and a test directory
    [srcdir/rest] under it, the directory of the compiled tests that the
    resolver is given is [libdir/rest], whatever the working directory, and
    the directory of their sources is the test directory. *)
Theorem compiled_test_root_mirrors_testdir :
  ∀ cwd libdir srcdir rest,
    isAbsolute cwd = true → is_clean_path cwd = true →
    is_clean_path libdir = true →
    isAbsolute srcdir = false → is_clean_path srcdir = true →
    isAbsolute rest = false → is_clean_path rest = true →
    let testdir := srcdir ++ chars "/" ++ rest in
    relative cwd srcdir testdir = rest
    ∧ libtest cwd libdir srcdir testdir = libdir ++ chars "/" ++ rest
    ∧ srctest testdir = srcdir ++ chars "/" ++ rest.
Proof.
  intros cwd libdir srcdir rest Hcwd Hcwd' Hlib Hsrc Hsrc' Hrest Hrest'
    testdir.
  assert (∃ body, cwd = "/"%char :: body ∧ clean_segments body)
    as (body & -> & Hbody).
  { apply is_clean_path_cases in Hcwd'
      as [(c & s & -> & Hc & _)|(s & -> & Hs)]; [|by exists s].
    simpl in Hcwd. congruence. }
  assert (∀ s, isAbsolute s = false → is_clean_path s = true →
               clean_segments s) as Hrelative.
  { intros s Hs [(c & s' & -> & _ & Hclean)|(s' & -> & _)]%is_clean_path_cases;
      [done|]. by simpl in Hs. }
  assert (relative ("/"%char :: body) srcdir testdir = rest) as Hrel.
  { apply relative_below; auto. }
  split_and!; [done| |done].
  unfold libtest. rewrite Hrel.
  pose proof (is_clean_path_nonempty libdir Hlib) as Hne.
  destruct (clean_segments_shape rest (Hrelative rest Hrest Hrest'))
    as [(c & rest' & -> & _) _].
  destruct libdir as [|l libdir]; [done|].
  change (join [l :: libdir; c :: rest'])
    with (normalize ((l :: libdir) ++ "/"%char :: c :: rest')).
  apply normalize_clean, is_clean_path_app; auto.
Qed.

Lemma compiled_test_root_mirrors_testdir_example :
  let cwd := chars "/home/dev/project" in
  relative cwd (chars "src") (chars "src/test/unit") = chars "test/unit"
  ∧ libtest cwd (chars "lib") (chars "src") (chars "src/test/unit")
    = chars "lib/test/unit"
  ∧ srctest (chars "src/test/unit") = chars "src/test/unit".
Proof.
  intros cwd.
  apply (compiled_test_root_mirrors_testdir cwd (chars "lib") (chars "src")
           (chars "test/unit")); reflexivity.
Defined.

End SnapshotRootsProperties.

(** ** The resolver with the roots of the constructor *)

Section ResolverOfTheConstructor.

Import PathRemapper SnapshotRoots.

Implicit Types (s t cwd body rest libdir srcdir stem ext : list ascii).
Implicit Types (subdirs : list (list ascii)).

Local Abbreviation clean_segments s :=
  (forallb is_clean_segment (split_sep s) = true).

Lemma indexOf_prefix pat t : indexOf pat (pat ++ t) = Some 0%nat.
Proof.
  pose proof (startsWith_prefix pat t) as Hstarts.
  destruct (pat ++ t); simpl; by rewrite Hstarts.
Qed.

(** A replacement at the start of the string. *)
Lemma str_replace_prefix pat repl t :
  "$"%char ∉ repl → str_replace (pat ++ t) pat repl = repl ++ t.
Proof.
  intros Hrepl.
  rewrite (str_replace_found _ _ _ 0) by auto using indexOf_prefix.
  simpl. by rewrite drop_app_length.
Qed.

Lemma is_clean_path_subdirs path subdirs :
  is_clean_path path = true →
  Forall (λ seg, is_clean_segment seg = true) subdirs →
  is_clean_path (path ++ concat (map (cons "/"%char) subdirs)) = true.
Proof.
  intros Hpath Hsubdirs. revert path Hpath.
  induction Hsubdirs as [|seg subdirs Hseg _ IH]; intros path Hpath; simpl.
  - by rewrite app_nil_r.
  - change (path ++ "/"%char :: seg ++ concat (map (cons "/"%char) subdirs))
      with (path ++ ("/"%char :: seg) ++ concat (map (cons "/"%char) subdirs)).
    rewrite app_assoc. by apply IH, is_clean_path_snoc.
Qed.

Lemma clean_segments_relative s :
  isAbsolute s = false → is_clean_path s = true → clean_segments s.
Proof.
  intros Hs [(c & s' & -> & _ & Hclean)|(s' & -> & _)]%is_clean_path_cases;
    [done|]. by simpl in Hs.
Qed.

Lemma libtest_below body libdir srcdir rest :
  clean_segments body → is_clean_path libdir = true →
  clean_segments srcdir → clean_segments rest →
  libtest ("/"%char :: body) libdir srcdir (srcdir ++ "/"%char :: rest)
  = libdir ++ "/"%char :: rest.
Proof.
  intros Hbody Hlib Hsrc Hrest. unfold libtest.
  rewrite relative_below by done.
  pose proof (is_clean_path_nonempty libdir Hlib) as Hne.
  destruct (clean_segments_shape rest Hrest) as [(c & rest' & -> & _) _].
  destruct libdir as [|l libdir]; [done|].
  change (join [l :: libdir; c :: rest'])
    with (normalize ((l :: libdir) ++ "/"%char :: c :: rest')).
  apply normalize_clean, is_clean_path_app; auto.
Qed.

(** X16: the resolver with the roots that the constructor gives it.  For a
    test directory [srcdir/rest], the compiled test [stem.js] in any chain
    of directories [subdirs] below [libdir/rest] has its snapshot in the
    same chain below [srcdir/rest], in [__snapshots__/stem.ts] followed by
    [ext], and that snapshot path is mapped back to the compiled test. *)
Theorem constructor_roots_round_trip :
  ∀ cwd libdir srcdir rest subdirs stem ext,
    isAbsolute cwd = true → is_clean_path cwd = true →
    is_clean_path libdir = true →
    isAbsolute srcdir = false → is_clean_path srcdir = true →
    isAbsolute rest = false → is_clean_path rest = true →
    "$"%char ∉ libdir → "$"%char ∉ srcdir → "$"%char ∉ rest →
    Forall (λ seg, is_clean_segment seg = true) subdirs →
    stem ≠ [] → "/"%char ∉ stem → "/"%char ∉ ext →
    let testdir := srcdir ++ chars "/" ++ rest in
    let libtest := libtest cwd libdir srcdir testdir in
    let srctest := srctest testdir in
    let below := concat (map (cons "/"%char) subdirs) in
    let p := libdir ++ chars "/" ++ rest ++ below
             ++ chars "/" ++ stem ++ chars ".js" in
    resolveSnapshotPath libtest srctest p ext
    = testdir ++ below ++ chars "/__snapshots__/" ++ stem ++ chars ".ts" ++ ext
    ∧ resolveTestPath libtest srctest
        (resolveSnapshotPath libtest srctest p ext) ext
      = p.
Proof.
  intros cwd libdir srcdir rest subdirs stem ext Hcwd Hcwd' Hlib Hsrc Hsrc'
    Hrest Hrest' Hlib_plain Hsrc_plain Hrest_plain Hsubdirs Hstem
    Hsep%nosep_notin Hext%nosep_notin testdir lt st below p.
  assert (∃ body, cwd = "/"%char :: body ∧ clean_segments body)
    as (body & -> & Hbody).
  { apply is_clean_path_cases in Hcwd'
      as [(c & s & -> & Hc & _)|(s & -> & Hs)]; [|by exists s].
    simpl in Hcwd. congruence. }
  pose proof (clean_segments_relative _ Hsrc Hsrc') as Hsrc_segments.
  pose proof (clean_segments_relative _ Hrest Hrest') as Hrest_segments.
  assert (lt = libdir ++ "/"%char :: rest) as Hlt.
  { by apply libtest_below. }
  assert (st = srcdir ++ "/"%char :: rest) as Hst by done.
  assert ("$"%char ∉ lt) as Hlt_plain.
  { rewrite Hlt. rewrite not_elem_of_app, not_elem_of_cons. by auto. }
  assert ("$"%char ∉ st) as Hst_plain.
  { rewrite Hst. rewrite not_elem_of_app, not_elem_of_cons. by auto. }
  assert (is_clean_path (lt ++ below) = true) as Hd.
  { rewrite Hlt. apply is_clean_path_subdirs; [|done].
    by apply is_clean_path_app. }
  assert (is_clean_path (st ++ below) = true) as Hd'.
  { rewrite Hst. apply is_clean_path_subdirs; [|done].
    by apply is_clean_path_app. }
  assert (p = (lt ++ below) ++ "/"%char :: stem ++ chars ".js") as Hp.
  { unfold p. rewrite Hlt. simpl. by rewrite <- !app_assoc. }
  assert (resolveSnapshotPath lt st p ext
          = ((st ++ below) ++ "/"%char :: chars "__snapshots__")
              ++ "/"%char :: stem ++ chars ".ts" ++ ext) as Hsnap.
  { rewrite Hp. apply resolveSnapshotPath_in_dir; [done..|].
    rewrite <- !app_assoc. by rewrite str_replace_prefix. }
  split.
  - rewrite Hsnap, Hst. unfold testdir. simpl. by rewrite <- !app_assoc.
  - rewrite Hsnap, Hp.
    rewrite resolveTestPath_of_snapshot;
      rewrite ?str_replace_prefix; done.
Qed.

(** A project with the sources in [src], the tests in [src/test] and the
    output in [lib]. *)
Lemma constructor_roots_round_trip_example :
  let cwd := chars "/home/dev/project" in
  let libtest := libtest cwd (chars "lib") (chars "src") (chars "src/test") in
  let srctest := srctest (chars "src/test") in
  let p := chars "lib/test/unit/api/client.test.js" in
  resolveSnapshotPath libtest srctest p (chars ".snap")
  = chars "src/test/unit/api/__snapshots__/client.test.ts.snap"
  ∧ resolveTestPath libtest srctest
      (resolveSnapshotPath libtest srctest p (chars ".snap")) (chars ".snap")
    = p.
Proof.
  intros cwd libtest srctest p.
  apply (constructor_roots_round_trip cwd (chars "lib") (chars "src")
           (chars "test") [chars "unit"; chars "api"] (chars "client.test")
           (chars ".snap"));
    try reflexivity; try discriminate; try (by repeat constructor);
    compute_done.
Defined.

End ResolverOfTheConstructor.

(** ** The finished project: the test task and the components *)

Section ComponentsProperties.

Import TaskGraphBuilder Components.

Implicit Types (options : TypeScriptProjectOptions) (super : NodeProject).
Implicit Types (components : ComponentOptions).
Implicit Types (p q r : TypeScriptProject).

Lemma appends_steps_refl p : appends_steps p p.
Proof. by unfold appends_steps. Qed.

Lemma appends_steps_trans p q r :
  appends_steps p q → appends_steps q r → appends_steps p r.
Proof.
  intros (Hc & Ht & Hb) (Hc' & Ht' & Hb'). unfold appends_steps.
  split_and!; by etrans.
Qed.

Lemma SampleCode_appends SampleDir :
  (∀ dir files p, appends_steps p (SampleDir dir files p)) →
  ∀ p, appends_steps p (SampleCode SampleDir p).
Proof.
  intros HSampleDir p. unfold SampleCode.
  eapply appends_steps_trans; apply HSampleDir.
Qed.

(** Components that only add steps at the end of the tasks: so does the
    part of the constructor that constructs them. *)
Lemma TypeScriptProject_new_appends
    Eslint SampleDir TypedocDocgen Projenrc components options super :
  (∀ p, appends_steps p (Eslint p)) →
  (∀ dir files p, appends_steps p (SampleDir dir files p)) →
  (∀ p, appends_steps p (TypedocDocgen p)) →
  (∀ p, appends_steps p (Projenrc p)) →
  appends_steps (TypeScriptProject_constructor options super)
    (TypeScriptProject_new Eslint SampleDir TypedocDocgen Projenrc
       components options super).
Proof.
  intros HEslint HSampleDir HDocgen HProjenrc. unfold TypeScriptProject_new.
  pose proof (SampleCode_appends SampleDir HSampleDir) as HSampleCode.
  destruct (default true (opt_eslint components)),
    (default true (opt_sampleCode components)),
    (default false (opt_docgen components)),
    (default false (opt_projenrcTs components));
    eauto 6 using appends_steps_refl, appends_steps_trans.
Qed.

(** X3: a project built without the optional components ([eslint: false],
    [sampleCode: false], no [docgen], no [projenrcTs]).  When the
    constructor is done, the steps of the test task are the steps that
    [NodeProject] gave it, after the cleanup of the output directory when
    the guard of lines 352 and 375 holds and after nothing otherwise: no
    cleanup is injected when there is no jest component, when the tests are
    compiled with the sources, or when the compilation comes first. *)
Theorem test_task_without_components :
  ∀ Eslint SampleDir TypedocDocgen Projenrc components options super,
    opt_eslint components = Some false →
    opt_sampleCode components = Some false →
    default false (opt_docgen components) = false →
    default false (opt_projenrcTs components) = false →
    let p :=
      TypeScriptProject_new Eslint SampleDir TypedocDocgen Projenrc
        components options super in
    let cleanup :=
      jest super && negb (compiledTests options)
      && negb (compileBeforeTest options) in
    steps (testTask (node p))
    = (if cleanup
       then [Exec ("rm -fr " +:+ default "lib" (opt_libdir options) +:+ "/")]
       else [])
      ++ steps (testTask super)
    ∧ (jest super = false ∨ compiledTests options = true
       ∨ compileBeforeTest options = true →
       steps (testTask (node p)) = steps (testTask super)).
Proof.
  intros Eslint SampleDir TypedocDocgen Projenrc components options super
    Heslint Hsample Hdocgen Hprojenrc p cleanup.
  assert (p = TypeScriptProject_constructor options super) as ->.
  { unfold p, TypeScriptProject_new.
    by rewrite Heslint, Hsample, Hdocgen, Hprojenrc. }
  split; [apply constructor_testTask_steps|apply no_cleanup_otherwise].
Qed.

(** Tests compiled with the sources and run before the compilation: they
    find the output directory as the last build left it. *)
Lemma test_task_without_components_example :
  let options :=
    mkProjectOptions None (Some "src") (Some "src/test") (Some false) None in
  let components := mkComponentOptions (Some false) (Some false) None None in
  let super :=
    mkNodeProject (mkTask "compile" None None [])
      (mkTask "test" None None [Spawn "test:compile"; Exec "jest"])
      (mkTask "build" None None []) true "yarn" in
  steps (testTask (node (TypeScriptProject_new example_Eslint (λ _ _ p, p)
                           id id components options super)))
  = [Spawn "test:compile"; Exec "jest"].
Proof.
  intros options components super.
  by destruct (test_task_without_components example_Eslint (λ _ _ p, p)
                 id id components options super eq_refl eq_refl eq_refl
                 eq_refl) as [-> _].
Defined.

(** X5: the constructor with its components, when each component that it
    constructs only adds steps at the end of the compile, test and build
    tasks (as a component does that has the test task spawn a task of its
    own).  The steps that the three tasks had are kept, in their order and
    together: the compile task has them first, then [tsc]; the test task
    has them after the cleanup step, when there is one, and before what the
    components add; the build task has them first, then the spawns of the
    constructor. *)
Theorem finished_project_keeps_steps :
  ∀ Eslint SampleDir TypedocDocgen Projenrc components options super,
    (∀ p, appends_steps p (Eslint p)) →
    (∀ dir files p, appends_steps p (SampleDir dir files p)) →
    (∀ p, appends_steps p (TypedocDocgen p)) →
    (∀ p, appends_steps p (Projenrc p)) →
    let p :=
      TypeScriptProject_new Eslint SampleDir TypedocDocgen Projenrc
        components options super in
    let cleanup :=
      jest super && negb (compiledTests options)
      && negb (compileBeforeTest options) in
    ∃ added_compile added_test added_build,
      steps (compileTask (node p))
      = steps (compileTask super) ++ [Exec "tsc"] ++ added_compile
      ∧ steps (testTask (node p))
        = (if cleanup
           then [Exec ("rm -fr " +:+ default "lib" (opt_libdir options)
                       +:+ "/")]
           else [])
          ++ steps (testTask super) ++ added_test
      ∧ steps (buildTask (node p))
        = steps (buildTask super)
          ++ (if compileBeforeTest options
              then [Spawn (name (compileTask super));
                    Spawn (name (testTask super))]
              else [Spawn (name (testTask super));
                    Spawn (name (compileTask super))])
          ++ (if packageEnabled options then [Spawn "package"] else [])
          ++ added_build.
Proof.
  intros Eslint SampleDir TypedocDocgen Projenrc components options super
    HEslint HSampleDir HDocgen HProjenrc p cleanup.
  destruct (TypeScriptProject_new_appends Eslint SampleDir TypedocDocgen
              Projenrc components options super HEslint HSampleDir HDocgen
              HProjenrc)
    as ([added_compile Hcompile] & [added_test Htest] & [added_build Hbuild]).
  exists added_compile, added_test, added_build.
  fold p in Hcompile, Htest, Hbuild.
  assert (steps (compileTask (node (TypeScriptProject_constructor options
                                      super)))
          = steps (compileTask super) ++ [Exec "tsc"]) as Htsc by done.
  rewrite Hcompile, Htest, Hbuild, Htsc.
  rewrite constructor_testTask_steps, constructor_buildTask_steps.
  unfold cleanup. split_and!; by rewrite <- ?app_assoc.
Qed.

(** The default project, with a component that has the test task spawn
    [eslint]: the cleanup first, the inherited steps next, the spawn last. *)
Lemma finished_project_keeps_steps_example :
  let options := mkProjectOptions None None None None None in
  let components := mkComponentOptions None None None None in
  let super :=
    mkNodeProject (mkTask "compile" None None [])
      (mkTask "test" None None [Spawn "test:compile"; Exec "jest"])
      (mkTask "build" None None []) true "yarn" in
  let p :=
    TypeScriptProject_new example_Eslint (λ _ _ p, p) id id components
      options super in
  steps (testTask (node p))
  = [Exec "rm -fr lib/"; Spawn "test:compile"; Exec "jest"; Spawn "eslint"]
  ∧ ∃ added_compile added_test added_build,
      steps (compileTask (node p)) = [] ++ [Exec "tsc"] ++ added_compile
      ∧ steps (testTask (node p))
        = [Exec "rm -fr lib/"] ++ [Spawn "test:compile"; Exec "jest"]
          ++ added_test
      ∧ steps (buildTask (node p))
        = [] ++ [Spawn "test"; Spawn "compile"] ++ [Spawn "package"]
          ++ added_build.
Proof.
  intros options components super p. split; [reflexivity|].
  apply (finished_project_keeps_steps example_Eslint (λ _ _ p, p) id id
           components options super).
  - intros q. unfold appends_steps, example_Eslint. simpl.
    split_and!; [done|by eexists|done].
  - intros dir files q. apply appends_steps_refl.
  - intros q. apply appends_steps_refl.
  - intros q. apply appends_steps_refl.
Defined.

End ComponentsProperties.
